(** Offline storage service of the mobile app (mobile/services/offline.ts)

    A shallow embedding of [OfflineService]: the question cache, the queue of
    pending answers, the synchronisation loop and the local progress store,
    together with the properties the design document states about them.

    Modelling conventions.
    - Instants ([Date], [Date.now()], ISO strings written by [toISOString]
      and read back by [new Date(...)]) are integers: milliseconds since the
      epoch, in [Z].
    - JavaScript numbers that the service only counts or adds (xp, counters,
      tiers, mastery scores) are integers in [Z].
    - [AsyncStorage] holds one JSON blob per key; the blob under each of the
      five keys is modelled by the value it parses to ([JSON.parse] after
      [JSON.stringify] is the identity on the records used here), [None]
      being the absent key.
    - The outside world is an environment of oracles ([Env]): the wall clock,
      the platform connectivity probe, storage faults and the two server
      endpoints, each indexed by how many times it has been consulted.
    - An [async] method is a resumption ([Async]): synchronous steps and
      suspension points ([await]).  [run] executes one call alone to
      completion; [advance] and [resume] expose the suspension points so that
      overlapping calls can be interleaved. *)

From Stdlib Require Import Ascii.
From stdpp Require Import base option list strings pretty sorting gmap.

Open Scope Z_scope.

(** * Data model *)

(** The payload served by POST /questions/generate, kept opaque ([any]). *)
Definition Question := string.

Record CachedQuestion := mkCachedQuestion {
  cq_id : string;
  cq_topic_slug : string;
  cq_difficulty_tier : Z;
  cq_question : Question;
  cq_cached_at : Z;
  cq_expires_at : Z }.

Record PendingAnswer := mkPendingAnswer {
  pa_id : string;
  pa_question_id : string;
  pa_user_answer : string;
  pa_response_time_ms : Z;
  pa_answered_at : Z;
  pa_topic_slug : string }.

Record OfflineProgress := mkOfflineProgress {
  user_id : string;
  total_xp : Z;
  level : Z;
  streak : Z;
  topic_mastery : gmap string Z;
  last_updated : Z }.

Record SyncResult := mkSyncResult {
  synced_answers : Z;
  failed_answers : Z;
  new_xp : Z;
  errors : list string }.

(** The object kept under the key [offline_stats]. *)
Record OfflineStats := mkOfflineStats {
  questions_answered_offline : Z;
  last_offline_practice : option Z }.

(** Request bodies of the two endpoints of ./api used by the service. *)
Record GenerateQuestionParams := mkGenerateQuestionParams {
  gq_topic_slug : string;
  gq_difficulty : option Z;
  gq_multiple_choice : bool }.

Record ValidateAnswerParams := mkValidateAnswerParams {
  va_question_id : string;
  va_user_answer : string;
  va_response_time_ms : Z }.

(** The part of [AnswerResult] the service reads. *)
Record AnswerResult := mkAnswerResult {
  is_correct : bool;
  xp_earned : option Z }.

(** * The persistent key-value store *)

Record Storage := mkStorage {
  CACHED_QUESTIONS : option (list CachedQuestion);
  PENDING_ANSWERS : option (list PendingAnswer);
  USER_PROGRESS : option OfflineProgress;
  LAST_SYNC : option Z;
  OFFLINE_STATS : option OfflineStats }.

Definition empty_storage : Storage := mkStorage None None None None None.

Definition set_CACHED_QUESTIONS (v : list CachedQuestion) (s : Storage) : Storage :=
  mkStorage (Some v) (PENDING_ANSWERS s) (USER_PROGRESS s) (LAST_SYNC s) (OFFLINE_STATS s).
Definition set_PENDING_ANSWERS (v : list PendingAnswer) (s : Storage) : Storage :=
  mkStorage (CACHED_QUESTIONS s) (Some v) (USER_PROGRESS s) (LAST_SYNC s) (OFFLINE_STATS s).
Definition set_USER_PROGRESS (v : OfflineProgress) (s : Storage) : Storage :=
  mkStorage (CACHED_QUESTIONS s) (PENDING_ANSWERS s) (Some v) (LAST_SYNC s) (OFFLINE_STATS s).
Definition set_LAST_SYNC (v : Z) (s : Storage) : Storage :=
  mkStorage (CACHED_QUESTIONS s) (PENDING_ANSWERS s) (USER_PROGRESS s) (Some v) (OFFLINE_STATS s).
Definition set_OFFLINE_STATS (v : OfflineStats) (s : Storage) : Storage :=
  mkStorage (CACHED_QUESTIONS s) (PENDING_ANSWERS s) (USER_PROGRESS s) (LAST_SYNC s) (Some v).

(** * The state of the service and of its collaborators *)

Record World := mkWorld {
  storage : Storage;
  isOnline : bool;            (* this.isOnline *)
  syncInProgress : bool;      (* this.syncInProgress *)
  n_clock : nat;              (* clock readings taken so far *)
  n_net : nat;                (* NetInfo.fetch() calls so far *)
  n_io : nat;                 (* AsyncStorage calls so far *)
  fetched : list GenerateQuestionParams;   (* requests sent to generateQuestion *)
  submitted : list ValidateAnswerParams    (* requests sent to validateAnswer *) }.

Definition initial_world : World :=
  mkWorld empty_storage true false 0 0 0 [] [].

Definition with_storage (f : Storage → Storage) (w : World) : World :=
  mkWorld (f (storage w)) (isOnline w) (syncInProgress w)
          (n_clock w) (n_net w) (n_io w) (fetched w) (submitted w).
Definition set_isOnline (b : bool) (w : World) : World :=
  mkWorld (storage w) b (syncInProgress w)
          (n_clock w) (n_net w) (n_io w) (fetched w) (submitted w).
Definition set_syncInProgress (b : bool) (w : World) : World :=
  mkWorld (storage w) (isOnline w) b
          (n_clock w) (n_net w) (n_io w) (fetched w) (submitted w).
Definition tick_clock (w : World) : World :=
  mkWorld (storage w) (isOnline w) (syncInProgress w)
          (S (n_clock w)) (n_net w) (n_io w) (fetched w) (submitted w).
Definition tick_net (w : World) : World :=
  mkWorld (storage w) (isOnline w) (syncInProgress w)
          (n_clock w) (S (n_net w)) (n_io w) (fetched w) (submitted w).
Definition tick_io (w : World) : World :=
  mkWorld (storage w) (isOnline w) (syncInProgress w)
          (n_clock w) (n_net w) (S (n_io w)) (fetched w) (submitted w).
Definition log_fetch (p : GenerateQuestionParams) (w : World) : World :=
  mkWorld (storage w) (isOnline w) (syncInProgress w)
          (n_clock w) (n_net w) (n_io w) (fetched w ++ [p]) (submitted w).
Definition log_submit (p : ValidateAnswerParams) (w : World) : World :=
  mkWorld (storage w) (isOnline w) (syncInProgress w)
          (n_clock w) (n_net w) (n_io w) (fetched w) (submitted w ++ [p]).

(** What the collaborators answer.  Every oracle is indexed by the number of
    earlier consultations, so any pattern of answers can be expressed. *)
Record Env := mkEnv {
  clock : nat → Z;                      (* k-th reading of the wall clock *)
  netinfo : nat → option bool;          (* state.isConnected of the k-th probe *)
  io_error : nat → option string;       (* the k-th AsyncStorage call rejects *)
  generate_reply : nat → GenerateQuestionParams → string + Question;
  validate_reply : nat → ValidateAnswerParams → string + AnswerResult }.

(** * Resumptions: asynchronous computations with explicit suspension points *)

Inductive Outcome (A : Type) : Type :=
| Ok (a : A)
| Throw (e : string).
Arguments Ok {A} a.
Arguments Throw {A} e.

Inductive Async (A : Type) : Type :=
| Ret (o : Outcome A)
| Sync (k : World → Async A) (u : World → World)    (* a synchronous step *)
| Await (k : World → Async A) (u : World → World).  (* suspend; the step happens on resumption *)
Arguments Ret {A} o.
Arguments Sync {A} k u.
Arguments Await {A} k u.

(** A step started in world [w] continues as [k w] in world [u w]. *)

Definition ret {A} (a : A) : Async A := Ret (Ok a).
Definition throw {A} (e : string) : Async A := Ret (Throw e).

Fixpoint bind {A B} (m : Async A) (f : A → Async B) : Async B :=
  match m with
  | Ret (Ok a) => f a
  | Ret (Throw e) => Ret (Throw e)
  | Sync k u => Sync (λ w, bind (k w) f) u
  | Await k u => Await (λ w, bind (k w) f) u
  end.

(** [try { m } catch (error) { h error }] *)
Fixpoint try_catch {A} (m : Async A) (h : string → Async A) : Async A :=
  match m with
  | Ret (Ok a) => Ret (Ok a)
  | Ret (Throw e) => h e
  | Sync k u => Sync (λ w, try_catch (k w) h) u
  | Await k u => Await (λ w, try_catch (k w) h) u
  end.

(** [try { m } finally { f }], for a synchronous [f] that does not throw. *)
Fixpoint try_finally {A} (m : Async A) (f : World → World) : Async A :=
  match m with
  | Ret o => Sync (λ _, Ret o) f
  | Sync k u => Sync (λ w, try_finally (k w) f) u
  | Await k u => Await (λ w, try_finally (k w) f) u
  end.

Notation "'let*' x ':=' m 'in' f" := (bind m (λ x, f))
  (at level 10, x name, m at level 100, f at level 200).
Notation "'do' m 'in' f" := (bind m (λ _, f))
  (at level 10, m at level 100, f at level 200).

(** Running one call alone, from its start to its completion. *)
Fixpoint run {A} (m : Async A) (w : World) : Outcome A * World :=
  match m with
  | Ret o => (o, w)
  | Sync k u => run (k w) (u w)
  | Await k u => run (k w) (u w)
  end.

(** Executing the synchronous prefix of a computation: up to its next
    suspension point, or to its end. *)
Fixpoint advance {A} (m : Async A) (w : World) : World * Async A :=
  match m with
  | Sync k u => advance (k w) (u w)
  | _ => (w, m)
  end.

(** Resuming a suspended computation: the awaited step, then the synchronous
    code that follows it. *)
Definition resume {A} (m : Async A) (w : World) : World * Async A :=
  match m with
  | Await k u => advance (k w) (u w)
  | _ => (w, m)
  end.

(** Synchronous primitives. *)
Definition gets {A} (f : World → A) : Async A := Sync (λ w, ret (f w)) id.
Definition modify (f : World → World) : Async unit := Sync (λ _, ret tt) f.

(** * The service *)

(** [x || d] on an optional number: [undefined] and [0] are falsy. *)
Definition or_number (x : option Z) (d : Z) : Z :=
  match x with
  | Some v => if decide (v = 0) then d else v
  | None => d
  end.

(** Truthiness of an optional string argument: [undefined] and [''] are falsy. *)
Definition truthy_string (x : option string) : bool :=
  match x with
  | Some s => if decide (s = "") then false else true
  | None => false
  end.

(** [scores[key] = value] on the object [JSON.parse] built, [value] being a
    number.  A key the object owns is overwritten and a new key is added,
    with one exception: the key [__proto__], unless the object owns it, is
    found as the accessor inherited from [Object.prototype], whose setter
    ignores a number; no key is written then. *)
Definition assign_score (key : string) (value : Z) (scores : gmap string Z)
    : gmap string Z :=
  if decide (key = "__proto__" ∧ scores !! "__proto__" = None) then scores
  else <[key := value]> scores.

(** The fixed time-to-live added in [cacheQuestions]: 24 hours in ms. *)
Definition TTL : Z := 24 * 60 * 60 * 1000.

Definition cached_id (t : Z) (i : nat) : string :=
  "cached_" +:+ pretty t +:+ "_" +:+ pretty i.

Definition pending_id (t : Z) : string := "pending_" +:+ pretty t.

Definition unexpired (t : Z) (q : CachedQuestion) : Prop := t < cq_expires_at q.
Global Instance unexpired_dec t q : Decision (unexpired t q).
Proof. unfold unexpired. apply _. Defined.

Definition has_topic (topic_slug : string) (q : CachedQuestion) : Prop :=
  cq_topic_slug q = topic_slug.
Global Instance has_topic_dec s q : Decision (has_topic s q).
Proof. unfold has_topic. apply _. Defined.

Definition other_id (id : string) (q : CachedQuestion) : Prop := cq_id q ≠ id.
Global Instance other_id_dec id q : Decision (other_id id q).
Proof. unfold other_id. apply _. Defined.

Definition sync_in_progress_result : SyncResult :=
  mkSyncResult 0 0 0 ["Sync already in progress"].
Definition device_offline_result : SyncResult :=
  mkSyncResult 0 0 0 ["Device is offline"].

Section Service.
Variable env : Env.

(** [new Date()] and [Date.now()]: one reading of the wall clock. *)
Definition now : Async Z :=
  Sync (λ w, ret (clock env (n_clock w))) tick_clock.

(** [await NetInfo.fetch()], returning [state.isConnected]. *)
Definition NetInfo_fetch : Async (option bool) :=
  Await (λ w, ret (netinfo env (n_net w))) tick_net.

(** [await AsyncStorage.getItem(key)] followed by [JSON.parse]. *)
Definition getItem {A} (key : Storage → option A) : Async (option A) :=
  Await (λ w, match io_error env (n_io w) with
              | Some e => throw e
              | None => ret (key (storage w))
              end) tick_io.

(** [await AsyncStorage.setItem(key, JSON.stringify(v))]. *)
Definition setItem {A} (set : A → Storage → Storage) (v : A) : Async unit :=
  Await (λ w, match io_error env (n_io w) with
              | Some e => throw e
              | None => ret tt
              end)
        (λ w, tick_io (match io_error env (n_io w) with
                       | Some _ => w
                       | None => with_storage (set v) w
                       end)).

(** [await generateQuestion(params)] of ./api. *)
Definition generateQuestion (params : GenerateQuestionParams) : Async Question :=
  Await (λ w, match generate_reply env (length (fetched w)) params with
              | inl e => throw e
              | inr q => ret q
              end) (log_fetch params).

(** [await validateAnswer(params)] of ./api. *)
Definition validateAnswer (params : ValidateAnswerParams) : Async AnswerResult :=
  Await (λ w, match validate_reply env (length (submitted w)) params with
              | inl e => throw e
              | inr r => ret r
              end) (log_submit params).

Definition checkOnline : Async bool :=
  let* state := NetInfo_fetch in
  do modify (set_isOnline (default false state)) in
  gets isOnline.

(** ** Question caching *)

Definition getCachedQuestions (topic_slug : option string) : Async (list CachedQuestion) :=
  try_catch
    (let* data := getItem CACHED_QUESTIONS in
     match data with
     | None => ret []
     | Some questions =>
         let* t := now in
         let questions := filter (unexpired t) questions in
         ret (if truthy_string topic_slug
              then filter (has_topic (default "" topic_slug)) questions
              else questions)
     end)
    (λ error, ret []).

(** The body of the [for] loop of [cacheQuestions], for [n] more rounds
    starting at index [i]. *)
Fixpoint cacheQuestions_loop (topic_slug : string) (difficulty_tier : option Z)
    (t_now expires : Z) (n i : nat) (cached : list CachedQuestion)
    : Async (list CachedQuestion) :=
  match n with
  | O => ret cached
  | S n' =>
      let* cached' :=
        try_catch
          (let* question := generateQuestion
               (mkGenerateQuestionParams topic_slug difficulty_tier true) in
           let* t := now in
           ret (cached ++ [mkCachedQuestion (cached_id t i) topic_slug
                             (or_number difficulty_tier 1) question t_now expires]))
          (λ error, ret cached) in
      cacheQuestions_loop topic_slug difficulty_tier t_now expires n' (S i) cached'
  end.

(** [merged.filter((q) => new Date(q.expires_at) > new Date())]: the clock
    is read again for every element. *)
Fixpoint filter_unexpired (l : list CachedQuestion) : Async (list CachedQuestion) :=
  match l with
  | [] => ret []
  | q :: l' =>
      let* t := now in
      let* r := filter_unexpired l' in
      ret (if decide (unexpired t q) then q :: r else r)
  end.

Definition cacheQuestions (topic_slug : string) (count : option Z)
    (difficulty_tier : option Z) : Async Z :=
  let* online := checkOnline in
  if negb online then ret 0
  else
    let* t_now := now in
    let expires := t_now + TTL in
    let* cached := cacheQuestions_loop topic_slug difficulty_tier t_now expires
                     (Z.to_nat (default 10 count)) 0 [] in
    let* existing := getCachedQuestions None in
    let merged := existing ++ cached in
    let* valid := filter_unexpired merged in
    do setItem set_CACHED_QUESTIONS valid in
    ret (Z.of_nat (length cached)).

(** The item [first] that [getOfflineQuestion] selects and removes. *)
Definition getOfflineQuestion_first (topic_slug : string) : Async (option CachedQuestion) :=
  let* questions := getCachedQuestions (Some topic_slug) in
  match questions with
  | [] => ret None
  | first :: rest =>
      let* allQuestions := getCachedQuestions None in
      let updated := filter (other_id (cq_id first)) allQuestions in
      do setItem set_CACHED_QUESTIONS updated in
      ret (Some first)
  end.

(** [getOfflineQuestion] hands out [first.question], or [null]. *)
Definition getOfflineQuestion (topic_slug : string) : Async (option Question) :=
  let* first := getOfflineQuestion_first topic_slug in
  ret (cq_question <$> first).

Definition getCacheCount (topic_slug : option string) : Async Z :=
  let* questions := getCachedQuestions topic_slug in
  ret (Z.of_nat (length questions)).

Definition clearExpiredCache : Async Z :=
  let* questions := getCachedQuestions None in
  let* t := now in
  let valid := filter (unexpired t) questions in
  let removed := Z.of_nat (length questions) - Z.of_nat (length valid) in
  do setItem set_CACHED_QUESTIONS valid in
  ret removed.

(** ** Offline stats *)

Definition updateOfflineStats (answeredQuestion : bool) : Async unit :=
  try_catch
    (let* data := getItem OFFLINE_STATS in
     let stats := default (mkOfflineStats 0 None) data in
     let* stats' :=
       (if answeredQuestion
        then let* t := now in
             ret (mkOfflineStats (questions_answered_offline stats + 1) (Some t))
        else ret stats) in
     setItem set_OFFLINE_STATS stats')
    (λ error, ret tt).

(** ** Answer queueing *)

Definition getPendingAnswers : Async (list PendingAnswer) :=
  try_catch
    (let* data := getItem PENDING_ANSWERS in
     ret (default [] data))
    (λ error, ret []).

Definition queueAnswer (question_id user_answer : string) (response_time_ms : Z)
    (topic_slug : string) : Async unit :=
  let* t_id := now in
  let* t_at := now in
  let pending := mkPendingAnswer (pending_id t_id) question_id user_answer
                   response_time_ms t_at topic_slug in
  let* existing := getPendingAnswers in
  do setItem set_PENDING_ANSWERS (existing ++ [pending]) in
  updateOfflineStats true.

(** The [for (const answer of pending)] loop of [syncPendingAnswers]. *)
Fixpoint sync_loop (pending : list PendingAnswer) (result : SyncResult)
    (remaining : list PendingAnswer) : Async (SyncResult * list PendingAnswer) :=
  match pending with
  | [] => ret (result, remaining)
  | answer :: rest =>
      let* st :=
        try_catch
          (let* response := validateAnswer
               (mkValidateAnswerParams (pa_question_id answer) (pa_user_answer answer)
                  (pa_response_time_ms answer)) in
           ret (mkSyncResult (synced_answers result + 1) (failed_answers result)
                  (match xp_earned response with
                   | Some xp => if decide (xp = 0) then new_xp result
                                else new_xp result + xp
                   | None => new_xp result
                   end)
                  (errors result), remaining))
          (λ error,
           ret (mkSyncResult (synced_answers result) (failed_answers result + 1)
                  (new_xp result)
                  (errors result ++
                     ["Failed to sync answer " +:+ pa_id answer +:+ ": " +:+ error]),
                remaining ++ [answer])) in
      sync_loop rest st.1 st.2
  end.

Definition syncPendingAnswers : Async SyncResult :=
  let* busy := gets syncInProgress in
  if busy then ret sync_in_progress_result
  else
    let* online := checkOnline in
    if negb online then ret device_offline_result
    else
      do modify (set_syncInProgress true) in
      let result := mkSyncResult 0 0 0 [] in
      try_finally
        (let* pending := getPendingAnswers in
         let* st := sync_loop pending result [] in
         do setItem set_PENDING_ANSWERS st.2 in
         let* t := now in
         do setItem set_LAST_SYNC t in
         ret st.1)
        (set_syncInProgress false).

(** ** Progress storage *)

Definition saveProgress (progress : OfflineProgress) : Async unit :=
  let* t := now in
  setItem set_USER_PROGRESS
    (mkOfflineProgress (user_id progress) (total_xp progress) (level progress)
       (streak progress) (topic_mastery progress) t).

Definition getProgress : Async (option OfflineProgress) :=
  try_catch (getItem USER_PROGRESS) (λ error, ret None).

Definition updateLocalMastery (topic_slug : string) (mastery : Z) : Async unit :=
  let* progress := getProgress in
  match progress with
  | Some progress =>
      saveProgress
        (mkOfflineProgress (user_id progress) (total_xp progress) (level progress)
           (streak progress) (assign_score topic_slug mastery (topic_mastery progress))
           (last_updated progress))
  | None => ret tt
  end.

End Service.

(** * The rest of the service *)

(** The object [getOfflineStats] returns. *)
Record OfflineStatsReport := mkOfflineStatsReport {
  os_questions_answered_offline : Z;
  os_pending_sync : Z;
  os_cached_questions : Z;
  os_last_sync : option Z }.

Definition clear_CACHED_QUESTIONS (s : Storage) : Storage :=
  mkStorage None (PENDING_ANSWERS s) (USER_PROGRESS s) (LAST_SYNC s) (OFFLINE_STATS s).
Definition clear_PENDING_ANSWERS (s : Storage) : Storage :=
  mkStorage (CACHED_QUESTIONS s) None (USER_PROGRESS s) (LAST_SYNC s) (OFFLINE_STATS s).
Definition clear_USER_PROGRESS (s : Storage) : Storage :=
  mkStorage (CACHED_QUESTIONS s) (PENDING_ANSWERS s) None (LAST_SYNC s) (OFFLINE_STATS s).
Definition clear_OFFLINE_STATS (s : Storage) : Storage :=
  mkStorage (CACHED_QUESTIONS s) (PENDING_ANSWERS s) (USER_PROGRESS s) (LAST_SYNC s) None.

(** [b], then rejection with [e], whatever [b] comes to. *)
Definition then_throw {A B} (b : Async B) (e : string) : Async A :=
  try_catch (do b in throw e) (λ _, throw e).

(** [Promise.all([a, b])]: both calls have been made; [a] and then [b] are
    carried through, and the whole rejects with the first rejection. *)
Fixpoint promise_all2 {A B} (a : Async A) (b : Async B) : Async (A * B) :=
  match a with
  | Ret (Ok x) => let* y := b in ret (x, y)
  | Ret (Throw e) => then_throw b e
  | Sync k u => Sync (λ w, promise_all2 (k w) b) u
  | Await k u => Await (λ w, promise_all2 (k w) b) u
  end.

Definition promise_all4 {A B C D} (a : Async A) (b : Async B) (c : Async C)
    (d : Async D) : Async (A * (B * (C * D))) :=
  promise_all2 a (promise_all2 b (promise_all2 c d)).

(** A call that is not awaited: it goes on by itself and what it comes to,
    result or rejection, is dropped. *)
Definition not_awaited {A} (m : Async A) : Async unit :=
  try_catch (do m in ret tt) (λ _, ret tt).

Section ServiceRest.
Variable env : Env.

(** [await AsyncStorage.removeItem(key)]. *)
Definition removeItem (clear : Storage → Storage) : Async unit :=
  Await (λ w, match io_error env (n_io w) with
              | Some e => throw e
              | None => ret tt
              end)
        (λ w, tick_io (match io_error env (n_io w) with
                       | Some _ => w
                       | None => with_storage clear w
                       end)).

(** The callback registered by [setupNetworkListener], called with
    [state.isConnected]. *)
Definition networkListener (isConnected : option bool) : Async unit :=
  let* wasOffline := gets (λ w, negb (isOnline w)) in
  do modify (set_isOnline (default false isConnected)) in
  let* online := gets isOnline in
  if wasOffline && online
  then not_awaited (syncPendingAnswers env)
  else ret tt.

Definition getOfflineStats : Async OfflineStatsReport :=
  try_catch
    (let* r := promise_all4 (getItem env OFFLINE_STATS) (getItem env LAST_SYNC)
                 (getPendingAnswers env) (getCachedQuestions env None) in
     let statsData := r.1 in
     let lastSync := r.2.1 in
     let pending := r.2.2.1 in
     let cached := r.2.2.2 in
     let stats := default 0 (questions_answered_offline <$> statsData) in
     ret (mkOfflineStatsReport (or_number (Some stats) 0)
            (Z.of_nat (length pending)) (Z.of_nat (length cached)) lastSync))
    (λ error, ret (mkOfflineStatsReport 0 0 0 None)).

Definition clearAllData : Async unit :=
  do promise_all4 (removeItem clear_CACHED_QUESTIONS) (removeItem clear_PENDING_ANSWERS)
       (removeItem clear_USER_PROGRESS) (removeItem clear_OFFLINE_STATS) in
  ret tt.

End ServiceRest.

(** * Auxiliary definitions used in the statements *)

(** Sequencing of outcomes, as [run] does it for [bind]. *)
Definition after {A B} (r : Outcome A * World) (f : A → World → Outcome B * World)
    : Outcome B * World :=
  match r.1 with
  | Ok a => f a r.2
  | Throw e => (Throw e, r.2)
  end.

Definition no_io_error (env : Env) : Prop := ∀ k, io_error env k = None.

Definition strictly_increasing (clk : nat → Z) : Prop :=
  ∀ i j : nat, (i < j)%nat → clk i < clk j.

Section Views.
Variable env : Env.

(** What [getCachedQuestions] yields in world [w], and the world it leaves. *)
Definition read_cached (topic_slug : option string) (w : World) : list CachedQuestion :=
  match io_error env (n_io w), CACHED_QUESTIONS (storage w) with
  | None, Some questions =>
      let valid := filter (unexpired (clock env (n_clock w))) questions in
      if truthy_string topic_slug
      then filter (has_topic (default "" topic_slug)) valid
      else valid
  | _, _ => []
  end.

Definition after_read_cached (w : World) : World :=
  match io_error env (n_io w), CACHED_QUESTIONS (storage w) with
  | None, Some _ => tick_clock (tick_io w)
  | _, _ => tick_io w
  end.

(** What [getPendingAnswers] and [getProgress] yield in world [w]. *)
Definition read_pending (w : World) : list PendingAnswer :=
  match io_error env (n_io w) with
  | None => default [] (PENDING_ANSWERS (storage w))
  | Some _ => []
  end.

Definition read_progress (w : World) : option OfflineProgress :=
  match io_error env (n_io w) with
  | None => USER_PROGRESS (storage w)
  | Some _ => None
  end.

End Views.

(** ** The server's part in a drain *)

(** The request [syncPendingAnswers] sends for a pending answer. *)
Definition request_of (answer : PendingAnswer) : ValidateAnswerParams :=
  mkValidateAnswerParams (pa_question_id answer) (pa_user_answer answer)
    (pa_response_time_ms answer).

(** The entries of [P] paired with the server's responses, when they are
    submitted in order as the [k]-th, [k+1]-th, ... requests. *)
Fixpoint server_responses (env : Env) (k : nat) (P : list PendingAnswer)
    : list (PendingAnswer * (string + AnswerResult)) :=
  match P with
  | [] => []
  | answer :: P' =>
      (answer, validate_reply env k (request_of answer)) :: server_responses env (S k) P'
  end.

(** The responses of the accepted entries, and the entries that failed. *)
Definition accepted (rs : list (PendingAnswer * (string + AnswerResult)))
    : list AnswerResult :=
  omap (λ r, match r.2 with inr response => Some response | inl _ => None end) rs.

Definition failed (rs : list (PendingAnswer * (string + AnswerResult)))
    : list PendingAnswer :=
  omap (λ r, match r.2 with inl _ => Some r.1 | inr _ => None end) rs.

Definition diagnostics (rs : list (PendingAnswer * (string + AnswerResult)))
    : list string :=
  omap (λ r, match r.2 with
             | inl error => Some ("Failed to sync answer " +:+ pa_id r.1 +:+ ": " +:+ error)
             | inr _ => None
             end) rs.

(** The reward a response carries ([xp_earned] may be missing). *)
Definition reward (response : AnswerResult) : Z := default 0 (xp_earned response).

Definition total_reward (responses : list AnswerResult) : Z :=
  foldr Z.add 0 (reward <$> responses).

(** ** The effect of a fill *)

(** The items one batch of [cacheQuestions] builds in [n] rounds starting at
    index [i], when the next request is the [kf]-th one sent to
    [generateQuestion] and the next clock reading is the [kc]-th. *)
Fixpoint fetch_batch (env : Env) (topic_slug : string) (difficulty_tier : option Z)
    (t_now expires : Z) (n i kf kc : nat) : list CachedQuestion :=
  match n with
  | O => []
  | S n' =>
      match generate_reply env kf
              (mkGenerateQuestionParams topic_slug difficulty_tier true) with
      | inr question =>
          mkCachedQuestion (cached_id (clock env kc) i) topic_slug
            (or_number difficulty_tier 1) question t_now expires
          :: fetch_batch env topic_slug difficulty_tier t_now expires n' (S i) (S kf) (S kc)
      | inl _ =>
          fetch_batch env topic_slug difficulty_tier t_now expires n' (S i) (S kf) kc
      end
  end.

(** The payloads of the successful ones among the requests number
    [kf], ..., [kf + n - 1]. *)
Definition successful_fetches (env : Env) (params : GenerateQuestionParams)
    (kf n : nat) : list Question :=
  omap (λ k, match generate_reply env k params with
             | inr question => Some question
             | inl _ => None
             end) (seq kf n).

(** The expiry sweep of [cacheQuestions]: the element at position [j] is
    compared with the clock reading number [k + j]. *)
Fixpoint sweep_from (clk : nat → Z) (k : nat) (l : list CachedQuestion)
    : list CachedQuestion :=
  match l with
  | [] => []
  | q :: l' =>
      if decide (unexpired (clk k) q)
      then q :: sweep_from clk (S k) l'
      else sweep_from clk (S k) l'
  end.

(** [n] further clock readings. *)
Definition tick_clock_by (n : nat) (w : World) : World :=
  mkWorld (storage w) (isOnline w) (syncInProgress w)
          (n_clock w + n) (n_net w) (n_io w) (fetched w) (submitted w).

(** ** Sequences of calls *)

(** The arguments of one [queueAnswer] call. *)
Record Enqueue := mkEnqueue {
  enq_question_id : string;
  enq_user_answer : string;
  enq_response_time_ms : Z;
  enq_topic_slug : string }.

(** [queueAnswer] calls made one after the other, each awaited. *)
Fixpoint run_enqueues (env : Env) (calls : list Enqueue) (w : World) : World :=
  match calls with
  | [] => w
  | c :: calls' =>
      run_enqueues env calls'
        (run (queueAnswer env (enq_question_id c) (enq_user_answer c)
                (enq_response_time_ms c) (enq_topic_slug c)) w).2
  end.

(** The clock readings that stamp the identifiers of [n] calls awaited one
    after the other from reading number [k] on, the store answering: each
    call reads the clock three times, first for its identifier. *)
Fixpoint call_times (env : Env) (k n : nat) : list Z :=
  match n with
  | O => []
  | S n' => clock env k :: call_times env (k + 3) n'
  end.

(** The arguments a queue entry was recorded with. *)
Definition recorded_call (a : PendingAnswer) : Enqueue :=
  mkEnqueue (pa_question_id a) (pa_user_answer a) (pa_response_time_ms a)
    (pa_topic_slug a).

(** The persisted queue and the persisted cache. *)
Definition queue (w : World) : list PendingAnswer :=
  default [] (PENDING_ANSWERS (storage w)).

Definition cache (w : World) : list CachedQuestion :=
  default [] (CACHED_QUESTIONS (storage w)).

(** One call on the item cache: [cacheQuestions] or [getOfflineQuestion]. *)
Inductive CacheOp :=
| Fill (topic_slug : string) (count : option Z) (difficulty_tier : option Z)
| Take (topic_slug : string).

(** Calls made one after the other, each awaited, whatever their outcome;
    the result lists the items the takes handed out, oldest first. *)
Fixpoint run_cache_ops (env : Env) (ops : list CacheOp) (w : World)
    : list CachedQuestion * World :=
  match ops with
  | [] => ([], w)
  | Fill topic_slug count difficulty_tier :: ops' =>
      run_cache_ops env ops'
        (run (cacheQuestions env topic_slug count difficulty_tier) w).2
  | Take topic_slug :: ops' =>
      let r := run (getOfflineQuestion_first env topic_slug) w in
      let rest := run_cache_ops env ops' r.2 in
      (match r.1 with
       | Ok (Some first) => first :: rest.1
       | _ => rest.1
       end, rest.2)
  end.

Definition cache_ids (w : World) : list string := cq_id <$> cache w.

(** The identifiers that a [cacheQuestions] call started in [w] builds. *)
Definition fill_ids (env : Env) (topic_slug : string) (count difficulty_tier : option Z)
    (w : World) : list string :=
  if default false (netinfo env (n_net w))
  then let t_now := clock env (n_clock w) in
       cq_id <$> fetch_batch env topic_slug difficulty_tier t_now (t_now + TTL)
                   (Z.to_nat (default 10 count)) 0 (length (fetched w)) (S (n_clock w))
  else [].

(** All the identifiers built by the fills of a sequence of calls, in the
    order in which they are built. *)
Fixpoint built_ids (env : Env) (ops : list CacheOp) (w : World) : list string :=
  match ops with
  | [] => []
  | Fill topic_slug count difficulty_tier :: ops' =>
      fill_ids env topic_slug count difficulty_tier w
      ++ built_ids env ops'
           (run (cacheQuestions env topic_slug count difficulty_tier) w).2
  | Take topic_slug :: ops' =>
      built_ids env ops' (run (getOfflineQuestion_first env topic_slug) w).2
  end.

(** An identifier built from a clock reading numbered in [lo, hi). *)
Definition stamped (env : Env) (lo hi : nat) (id : string) : Prop :=
  ∃ k i, (lo ≤ k < hi)%nat ∧ id = cached_id (clock env k) i.

(** ** Overlapping calls *)

(** Which of two calls in flight is resumed next. *)
Inductive Turn := First | Second.

(** Two suspended calls resumed in the order a schedule gives. *)
Fixpoint interleave {A B} (schedule : list Turn) (a : Async A) (b : Async B)
    (w : World) : World * Async A * Async B :=
  match schedule with
  | [] => (w, a, b)
  | First :: schedule' => let r := resume a w in interleave schedule' r.2 b r.1
  | Second :: schedule' => let r := resume b w in interleave schedule' a r.2 r.1
  end.

(** [drain()] called twice in a row: the first call runs up to its first
    [await], the second call is made at that point, and the two are then
    resumed according to the schedule. *)
Definition overlapping_drains (env : Env) (schedule : list Turn) (w : World)
    : World * Async SyncResult * Async SyncResult :=
  let first := advance (syncPendingAnswers env) w in
  let second := advance (syncPendingAnswers env) first.1 in
  interleave schedule first.2 second.2 second.1.

Definition alternating : list Turn :=
  [First; Second; First; Second; First; Second; First; Second; First; Second].

(** A drain brought to the point where it has read the pending answers:
    called, resumed when the connectivity probe answers (the guard is raised
    then), and resumed again when the store answers the read. *)
Definition drain_until_queue_read (env : Env) (w : World) : World * Async SyncResult :=
  let called := advance (syncPendingAnswers env) w in
  let probed := resume called.2 called.1 in
  resume probed.2 probed.1.

(** What is left of [syncPendingAnswers] once it has read the pending
    answers [pending]: the loop, the two writes and the release of the
    guard. *)
Definition drain_from_queue_read (env : Env) (pending : list PendingAnswer)
    : Async SyncResult :=
  try_finally
    (let* st := sync_loop env pending (mkSyncResult 0 0 0 []) [] in
     do setItem env set_PENDING_ANSWERS st.2 in
     let* t := now env in
     do setItem env set_LAST_SYNC t in
     ret st.1)
    (set_syncInProgress false).

(** [queueAnswer] called twice in a row, the second call being made before
    the first has been resumed; the two calls are then resumed in turn until
    both are over (four suspension points each). *)
Definition overlapping_enqueues (env : Env) (a b : Enqueue) (w : World)
    : World * Async unit * Async unit :=
  let first := advance (queueAnswer env (enq_question_id a) (enq_user_answer a)
                          (enq_response_time_ms a) (enq_topic_slug a)) w in
  let second := advance (queueAnswer env (enq_question_id b) (enq_user_answer b)
                           (enq_response_time_ms b) (enq_topic_slug b)) first.1 in
  interleave [First; Second; First; Second; First; Second; First; Second]
    first.2 second.2 second.1.

(** [getOfflineQuestion] called twice in a row for one category, the second
    call being made before the first has been resumed; the two calls are
    then resumed in turn until both are over (three suspension points
    each: two reads and a write). *)
Definition overlapping_takes (env : Env) (topic_slug : string) (w : World)
    : World * Async (option CachedQuestion) * Async (option CachedQuestion) :=
  let first := advance (getOfflineQuestion_first env topic_slug) w in
  let second := advance (getOfflineQuestion_first env topic_slug) first.1 in
  interleave [First; Second; First; Second; First; Second]
    first.2 second.2 second.1.

(** A computation that is suspended or over: it has no synchronous step to
    take before its next suspension point. *)
Definition parked {A} (m : Async A) : Prop :=
  match m with
  | Sync _ _ => False
  | _ => True
  end.

(** ** Identifiers as strings *)

(** A string in which the character [c] does not occur. *)
Fixpoint free_of (c : ascii) (s : string) : Prop :=
  match s with
  | EmptyString => True
  | String a s' => a ≠ c ∧ free_of c s'
  end.

(** The order that [<] puts on two strings in JavaScript: the first code
    unit in which they differ decides, and a proper prefix comes first.
    Identifiers are ASCII, one code unit per character. *)
Fixpoint string_lt (a b : string) : bool :=
  match a, b with
  | _, EmptyString => false
  | EmptyString, String _ _ => true
  | String x a', String y b' =>
      if decide (x = y) then string_lt a' b'
      else bool_decide (N_of_ascii x < N_of_ascii y)%N
  end.

(** The entry a [queueAnswer] call made with arguments [c] builds when it
    reads [t_id] and then [t_at] from the clock. *)
Definition enqueued (c : Enqueue) (t_id t_at : Z) : PendingAnswer :=
  mkPendingAnswer (pending_id t_id) (enq_question_id c) (enq_user_answer c)
    (enq_response_time_ms c) t_at (enq_topic_slug c).

(** One [queueAnswer] call followed through its suspension points: made in
    world [w], resumed in [w1] when the store answers its read, and resumed
    in [w2] when the store answers its write; [w1] and [w2] are whatever
    other calls have made of the world in the meantime.  The result is the
    world right after the write. *)
Definition enqueue_through (env : Env) (c : Enqueue) (w w1 w2 : World) : World :=
  let called := advance (queueAnswer env (enq_question_id c) (enq_user_answer c)
                           (enq_response_time_ms c) (enq_topic_slug c)) w in
  let read := resume called.2 w1 in
  (resume read.2 w2).1.

(** ** What a drain reports and leaves *)

(** The result of a drain whose entries met the responses [rs]. *)
Definition drain_result (rs : list (PendingAnswer * (string + AnswerResult)))
    : SyncResult :=
  mkSyncResult (Z.of_nat (length (accepted rs))) (Z.of_nat (length (failed rs)))
    (total_reward (accepted rs)) (diagnostics rs).

(** The world a drain is in once its loop over [P] is over: probe made,
    guard raised, queue read, every entry submitted. *)
Definition after_sync_loop (P : list PendingAnswer) (w : World) : World :=
  mkWorld (storage w) true true (n_clock w) (S (n_net w)) (S (n_io w))
          (fetched w) (submitted w ++ (request_of <$> P)).

(** ** Progress snapshots *)

(** The snapshot [saveProgress] writes for [p] at instant [t]. *)
Definition stamp_progress (p : OfflineProgress) (t : Z) : OfflineProgress :=
  mkOfflineProgress (user_id p) (total_xp p) (level p) (streak p) (topic_mastery p) t.

(** [progress.topic_mastery[topic_slug] = mastery]. *)
Definition with_mastery (topic_slug : string) (mastery : Z) (p : OfflineProgress)
    : OfflineProgress :=
  mkOfflineProgress (user_id p) (total_xp p) (level p) (streak p)
    (assign_score topic_slug mastery (topic_mastery p)) (last_updated p).

(** [n] drains run one after the other. *)
Fixpoint run_drains (env : Env) (n : nat) (w : World) : World :=
  match n with
  | O => w
  | S n' => run_drains env n' (run (syncPendingAnswers env) w).2
  end.

(** The connectivity probe always reports a connection. *)
Definition always_online (env : Env) : Prop :=
  ∀ k, default false (netinfo env k) = true.

(** From its [K]-th request on, the server accepts every submission. *)
Definition accepts_from (env : Env) (K : nat) : Prop :=
  ∀ k params, (K ≤ k)%nat → ∃ response, validate_reply env k params = inr response.

(** ** Which keys a call leaves alone *)

Definition keeps_cache (w w' : World) : Prop :=
  CACHED_QUESTIONS (storage w') = CACHED_QUESTIONS (storage w).
Definition keeps_queue (w w' : World) : Prop :=
  PENDING_ANSWERS (storage w') = PENDING_ANSWERS (storage w).
Definition keeps_progress (w w' : World) : Prop :=
  USER_PROGRESS (storage w') = USER_PROGRESS (storage w).
Definition keeps_last_sync (w w' : World) : Prop :=
  LAST_SYNC (storage w') = LAST_SYNC (storage w).
Definition keeps_stats (w w' : World) : Prop :=
  OFFLINE_STATS (storage w') = OFFLINE_STATS (storage w).
Definition submits_nothing (w w' : World) : Prop := submitted w' = submitted w.
Definition fetches_nothing (w w' : World) : Prop := fetched w' = fetched w.

(** ** Storage failures *)

(** "Every operation recovers locally": the operation never throws. *)
Definition recovers_locally {A} (op : Env → Async A) : Prop :=
  ∀ env w, ∃ a, (run (op env) w).1 = Ok a.

(** ** Example environments and worlds *)

(** A device that is online, a store that never fails and a server that
    accepts everything, under a clock that shows [t] at every reading. *)
Definition steady_env (t : Z) : Env :=
  mkEnv (λ _, t) (λ _, Some true) (λ _, None)
        (λ k _, inr ("question " +:+ pretty k))
        (λ _ _, inr (mkAnswerResult true (Some 10))).

(** The same, under a clock that advances by one millisecond per reading. *)
Definition ticking_env : Env :=
  mkEnv (λ k, 1000 + Z.of_nat k) (λ _, Some true) (λ _, None)
        (λ k _, inr ("question " +:+ pretty k))
        (λ _ _, inr (mkAnswerResult true (Some 10))).

Definition with_cache (l : list CachedQuestion) : World :=
  with_storage (set_CACHED_QUESTIONS l) initial_world.

(** Two items cached at instant 0 and one cached an hour later. *)
Definition sample_cache : list CachedQuestion :=
  [ mkCachedQuestion "cached_0_0" "arithmetic" 1 "2+2" 0 TTL;
    mkCachedQuestion "cached_0_1" "arithmetic" 1 "3+4" 0 TTL;
    mkCachedQuestion "cached_3600000_0" "fractions" 2 "1/2+1/3" 3600000 (3600000 + TTL) ].

(** Three items for one category, cached together at instant [T0]. *)
Definition three_arithmetic (T0 : Z) : list CachedQuestion :=
  [ mkCachedQuestion (cached_id T0 0) "arithmetic" 1 "2+2" T0 (T0 + TTL);
    mkCachedQuestion (cached_id T0 1) "arithmetic" 1 "3+4" T0 (T0 + TTL);
    mkCachedQuestion (cached_id T0 2) "arithmetic" 1 "5+6" T0 (T0 + TTL) ].

(** Two items that carry one identifier, followed by an unrelated one. *)
Definition colliding_cache : list CachedQuestion :=
  [ mkCachedQuestion "cached_7_0" "arithmetic" 1 "2+2" 7 (7 + TTL);
    mkCachedQuestion "cached_7_0" "arithmetic" 1 "3+4" 7 (7 + TTL);
    mkCachedQuestion "cached_7_1" "arithmetic" 1 "5+6" 7 (7 + TTL) ].

(** A device that reports no connectivity. *)
Definition offline_env : Env :=
  mkEnv (λ k, 1000 + Z.of_nat k) (λ _, Some false) (λ _, None)
        (λ k _, inr ("question " +:+ pretty k))
        (λ _ _, inr (mkAnswerResult true (Some 10))).

(** A server that fails the second request it receives, of either kind. *)
Definition flaky_env : Env :=
  mkEnv (λ k, 1000 + Z.of_nat k) (λ _, Some true) (λ _, None)
        (λ k _, if decide (k = 1%nat) then inl "timeout"
                else inr ("question " +:+ pretty k))
        (λ k _, if decide (k = 1%nat) then inl "rejected"
                else inr (mkAnswerResult true (Some 10))).

(** A store whose second call fails. *)
Definition failing_write_env : Env :=
  mkEnv (λ k, 1000 + Z.of_nat k) (λ _, Some true)
        (λ k, if decide (k = 1%nat) then Some "disk full" else None)
        (λ k _, inr ("question " +:+ pretty k))
        (λ _ _, inr (mkAnswerResult true (Some 10))).

(** Three results recorded while offline. *)
Definition R1 : PendingAnswer := mkPendingAnswer "pending_1" "q1" "4" 900 1 "arithmetic".
Definition R2 : PendingAnswer := mkPendingAnswer "pending_2" "q2" "7" 1200 2 "arithmetic".
Definition R3 : PendingAnswer := mkPendingAnswer "pending_3" "q3" "11" 700 3 "arithmetic".

Definition with_queue (l : list PendingAnswer) : World :=
  with_storage (set_PENDING_ANSWERS l) initial_world.

(** A store whose first call fails. *)
Definition failing_read_env : Env :=
  mkEnv (λ k, 1000 + Z.of_nat k) (λ _, Some true)
        (λ k, if decide (k = 0%nat) then Some "read error" else None)
        (λ k _, inr ("question " +:+ pretty k))
        (λ _ _, inr (mkAnswerResult true (Some 10))).

(** A snapshot with one mastery score. *)
Definition sample_progress : OfflineProgress :=
  mkOfflineProgress "user-1" 120 3 5 {[ "arithmetic" := 40 ]} 0.

Definition with_progress (p : OfflineProgress) : World :=
  with_storage (set_USER_PROGRESS p) initial_world.

(** * Properties *)

(** ** Laws of [run] *)

Lemma run_ret {A} (a : A) w : run (ret a) w = (Ok a, w).
Proof. reflexivity. Qed.

Lemma run_bind {A B} (m : Async A) (f : A → Async B) w :
  run (bind m f) w = after (run m w) (λ a, run (f a)).
Proof.
  revert w. induction m as [[a|e]|k IH u|k IH u]; intros w; simpl; auto.
Qed.

Lemma run_try_catch {A} (m : Async A) (h : string → Async A) w :
  run (try_catch m h) w =
  match (run m w).1 with
  | Ok a => (Ok a, (run m w).2)
  | Throw e => run (h e) (run m w).2
  end.
Proof.
  revert w. induction m as [[a|e]|k IH u|k IH u]; intros w; simpl; auto.
Qed.

Lemma run_try_finally {A} (m : Async A) (f : World → World) w :
  run (try_finally m f) w = ((run m w).1, f (run m w).2).
Proof.
  revert w. induction m as [o|k IH u|k IH u]; intros w; simpl; auto.
Qed.

(** Stepping a call from suspension point to suspension point reaches the
    same end as running it in one go. *)
Lemma run_advance {A} (m : Async A) w :
  run (advance m w).2 (advance m w).1 = run m w.
Proof. revert w. induction m as [o|k IH u|k IH u]; intros w; simpl; auto. Qed.

Lemma run_resume {A} (m : Async A) w :
  run (resume m w).2 (resume m w).1 = run m w.
Proof. destruct m as [o|k u|k u]; simpl; auto using run_advance. Qed.

Lemma after_Ok {A B} (a : A) w (f : A → World → Outcome B * World) :
  after (Ok a, w) f = f a w.
Proof. reflexivity. Qed.

(** ** Clocks *)

Lemma strictly_increasing_inj clk i j :
  strictly_increasing clk → clk i = clk j → i = j.
Proof.
  intros Hclk Heq.
  destruct (Nat.lt_trichotomy i j) as [Hlt|[->|Hlt]]; [|done|];
    apply Hclk in Hlt; lia.
Qed.

(** ** List helpers *)

Lemma filter_all {A} (P : A → Prop) `{∀ x, Decision (P x)} (l : list A) :
  Forall P l → filter P l = l.
Proof.
  induction 1 as [|x l HP _ IH]; [done|].
  rewrite filter_cons_True by done. by rewrite IH.
Qed.

Lemma Forall_filter_same {A} (P : A → Prop) `{∀ x, Decision (P x)} (l : list A) :
  Forall P (filter P l).
Proof. apply Forall_forall. intros x Hx. by apply list_elem_of_filter in Hx as [? _]. Qed.

(** ** Sequential behaviour of the storage readers *)

Section Readers.
Variable env : Env.


Lemma run_getCachedQuestions topic_slug w :
  run (getCachedQuestions env topic_slug) w
  = (Ok (read_cached env topic_slug w), after_read_cached env w).
Proof.
  unfold getCachedQuestions, read_cached, after_read_cached.
  rewrite run_try_catch. simpl.
  destruct (io_error env (n_io w)) as [e|]; simpl; [done|].
  destruct (CACHED_QUESTIONS (storage w)) as [questions|]; simpl; done.
Qed.

Lemma storage_after_read_cached w : storage (after_read_cached env w) = storage w.
Proof.
  unfold after_read_cached.
  destruct (io_error env (n_io w)), (CACHED_QUESTIONS (storage w)); done.
Qed.

Lemma n_io_after_read_cached w : n_io (after_read_cached env w) = S (n_io w).
Proof.
  unfold after_read_cached.
  destruct (io_error env (n_io w)), (CACHED_QUESTIONS (storage w)); done.
Qed.

Lemma n_clock_after_read_cached w :
  (n_clock w ≤ n_clock (after_read_cached env w) ≤ S (n_clock w))%nat.
Proof.
  unfold after_read_cached.
  destruct (io_error env (n_io w)), (CACHED_QUESTIONS (storage w)); simpl; lia.
Qed.

Lemma read_cached_unexpired topic_slug w :
  Forall (unexpired (clock env (n_clock w))) (read_cached env topic_slug w).
Proof.
  unfold read_cached.
  destruct (io_error env (n_io w)); [constructor|].
  destruct (CACHED_QUESTIONS (storage w)) as [questions|]; [|constructor].
  apply Forall_forall. intros q Hq.
  destruct (truthy_string topic_slug).
  - apply list_elem_of_filter in Hq as [_ Hq].
    by apply list_elem_of_filter in Hq as [Hq _].
  - by apply list_elem_of_filter in Hq as [Hq _].
Qed.

Lemma read_cached_sublist topic_slug w :
  read_cached env topic_slug w `sublist_of` default [] (CACHED_QUESTIONS (storage w)).
Proof.
  unfold read_cached.
  destruct (io_error env (n_io w)); [apply sublist_nil_l|].
  destruct (CACHED_QUESTIONS (storage w)) as [questions|]; [|done]. simpl.
  destruct (truthy_string topic_slug).
  - etrans; apply sublist_filter.
  - apply sublist_filter.
Qed.


Lemma read_cached_topic topic_slug w :
  topic_slug ≠ "" →
  Forall (has_topic topic_slug) (read_cached env (Some topic_slug) w).
Proof.
  intros Hne. unfold read_cached.
  destruct (io_error env (n_io w)); [constructor|].
  destruct (CACHED_QUESTIONS (storage w)) as [questions|]; [|constructor].
  unfold truthy_string. destruct (decide (topic_slug = "")); [done|].
  simpl. apply Forall_filter_same.
Qed.

Lemma run_getPendingAnswers w :
  run (getPendingAnswers env) w = (Ok (read_pending env w), tick_io w).
Proof.
  unfold getPendingAnswers, read_pending. rewrite run_try_catch. simpl.
  destruct (io_error env (n_io w)); done.
Qed.


Lemma run_getProgress w :
  run (getProgress env) w = (Ok (read_progress env w), tick_io w).
Proof.
  unfold getProgress, read_progress. rewrite run_try_catch. simpl.
  destruct (io_error env (n_io w)); done.
Qed.

Lemma run_getCacheCount topic_slug w :
  run (getCacheCount env topic_slug) w
  = (Ok (Z.of_nat (length (read_cached env topic_slug w))), after_read_cached env w).
Proof.
  unfold getCacheCount. rewrite run_bind, run_getCachedQuestions. done.
Qed.

Lemma run_getItem {A} (key : Storage → option A) w :
  run (getItem env key) w =
  match io_error env (n_io w) with
  | Some e => (Throw e, tick_io w)
  | None => (Ok (key (storage w)), tick_io w)
  end.
Proof. simpl. destruct (io_error env (n_io w)); done. Qed.

Lemma run_setItem {A} (set : A → Storage → Storage) v w :
  run (setItem env set v) w =
  match io_error env (n_io w) with
  | Some e => (Throw e, tick_io w)
  | None => (Ok tt, tick_io (with_storage (set v) w))
  end.
Proof. simpl. destruct (io_error env (n_io w)); done. Qed.

Lemma run_now w : run (now env) w = (Ok (clock env (n_clock w)), tick_clock w).
Proof. done. Qed.

Lemma run_checkOnline w :
  run (checkOnline env) w
  = (Ok (default false (netinfo env (n_net w))),
     set_isOnline (default false (netinfo env (n_net w))) (tick_net w)).
Proof. done. Qed.

(** [updateOfflineStats] swallows every storage error. *)
Lemma run_updateOfflineStats_Ok b w :
  (run (updateOfflineStats env b) w).1 = Ok tt.
Proof.
  unfold updateOfflineStats. rewrite run_try_catch.
  destruct (run _ w) as [[[]|e] w']; done.
Qed.

End Readers.

(** ** Sweeping: [clearExpiredCache] *)

Section Sweep.
Variable env : Env.

Lemma run_clearExpiredCache w :
  let questions := read_cached env None w in
  let w0 := after_read_cached env w in
  let valid := filter (unexpired (clock env (n_clock w0))) questions in
  run (clearExpiredCache env) w =
  match io_error env (S (n_io w)) with
  | Some e => (Throw e, tick_io (tick_clock w0))
  | None => (Ok (Z.of_nat (length questions) - Z.of_nat (length valid)),
             tick_io (with_storage (set_CACHED_QUESTIONS valid) (tick_clock w0)))
  end.
Proof.
  intros questions w0 valid. unfold clearExpiredCache.
  rewrite run_bind, run_getCachedQuestions, after_Ok. fold w0 questions.
  rewrite run_bind, run_now, after_Ok. fold valid.
  rewrite run_bind, run_setItem. simpl.
  replace (n_io w0) with (S (n_io w)) by (symmetry; apply n_io_after_read_cached).
  destruct (io_error env (S (n_io w))); done.
Qed.

End Sweep.

(** C8. [sweep()] is idempotent: whenever a [clearExpiredCache] call has
    completed, a second call made at the same instant (its clock readings
    equal the instant the first call swept at, and the store answers)
    removes nothing: it returns 0 and leaves the persisted store as the first
    call left it. *)
Theorem clearExpiredCache_idempotent env w removed w1 :
  run (clearExpiredCache env) w = (Ok removed, w1) →
  (∀ k, (n_clock w1 ≤ k)%nat → clock env k = clock env (pred (n_clock w1))) →
  (∀ k, (n_io w1 ≤ k)%nat → io_error env k = None) →
  ∃ w2, run (clearExpiredCache env) w1 = (Ok 0, w2) ∧ storage w2 = storage w1.
Proof.
  intros Hfirst Hclock Hio.
  rewrite run_clearExpiredCache in Hfirst.
  destruct (io_error env (S (n_io w))) as [e|]; [done|].
  set (w0 := after_read_cached env w) in *.
  set (t := clock env (n_clock w0)) in *.
  set (valid := filter (unexpired t) (read_cached env None w)) in *.
  injection Hfirst as _ <-.
  rewrite run_clearExpiredCache.
  set (w1 := tick_io (with_storage (set_CACHED_QUESTIONS valid) (tick_clock w0))) in *.
  assert (Ht : ∀ k, (S (n_clock w0) ≤ k)%nat → clock env k = t)
    by (intros k Hk; apply (Hclock k Hk)).
  assert (Hread : read_cached env None w1 = valid).
  { unfold read_cached. rewrite Hio by done. simpl.
    rewrite Ht by done. apply filter_all, Forall_filter_same. }
  assert (Hafter : after_read_cached env w1 = tick_clock (tick_io w1)).
  { unfold after_read_cached. by rewrite Hio. }
  rewrite (Hio (S (n_io w1))) by lia.
  rewrite Hread, Hafter. simpl n_clock. rewrite Ht by lia.
  rewrite (filter_all _ valid) by apply Forall_filter_same.
  eexists. split; [f_equal; f_equal; lia|]. done.
Qed.

Lemma clearExpiredCache_idempotent_witness :
  let env := steady_env (TTL + 5) in
  let w1 := (run (clearExpiredCache env) (with_cache sample_cache)).2 in
  ∃ w2, run (clearExpiredCache env) w1 = (Ok 0, w2) ∧ storage w2 = storage w1.
Proof.
  intros env w1.
  apply (clearExpiredCache_idempotent env (with_cache sample_cache) 0 w1).
  - vm_compute. reflexivity.
  - intros k _. reflexivity.
  - intros k _. reflexivity.
Defined.

(** ** Taking and counting: [getOfflineQuestion], [getCacheCount] *)

Section Take.
Variable env : Env.

Lemma run_getOfflineQuestion_first topic_slug w :
  let w0 := after_read_cached env w in
  let allQuestions := read_cached env None w0 in
  let w1 := after_read_cached env w0 in
  run (getOfflineQuestion_first env topic_slug) w =
  match read_cached env (Some topic_slug) w with
  | [] => (Ok None, w0)
  | first :: _ =>
      match io_error env (n_io w1) with
      | Some e => (Throw e, tick_io w1)
      | None =>
          (Ok (Some first),
           tick_io (with_storage
                      (set_CACHED_QUESTIONS
                         (filter (other_id (cq_id first)) allQuestions)) w1))
      end
  end.
Proof.
  intros w0 allQuestions w1. unfold getOfflineQuestion_first.
  rewrite run_bind, run_getCachedQuestions, after_Ok. fold w0.
  destruct (read_cached env (Some topic_slug) w) as [|first rest]; [done|].
  rewrite run_bind, run_getCachedQuestions, after_Ok. fold w1 allQuestions.
  rewrite run_bind, run_setItem.
  destruct (io_error env (n_io w1)); done.
Qed.

Lemma run_getOfflineQuestion topic_slug w :
  run (getOfflineQuestion env topic_slug) w =
  after (run (getOfflineQuestion_first env topic_slug) w)
        (λ first w', (Ok (cq_question <$> first), w')).
Proof. unfold getOfflineQuestion. by rewrite run_bind. Qed.

End Take.

(** C4. [take] never hands out an item that has expired at the time of the
    call, and [count] never counts one: the item selected by
    [getOfflineQuestion] and every item counted by [getCacheCount] has an
    expires-at strictly after the clock reading [t] taken by the call.  In
    particular, when the stored items of a category were cached at [T0] with
    the 24-hour TTL and the call is made at [T0 + 25h], [take] answers "none
    available" ([null]) and [count] answers 0 for that category. *)
Theorem take_and_count_skip_expired env w topic_slug :
  let t := clock env (n_clock w) in
  let stored := default [] (CACHED_QUESTIONS (storage w)) in
  (∀ first w',
     run (getOfflineQuestion_first env topic_slug) w = (Ok (Some first), w') →
     first ∈ stored ∧ t < cq_expires_at first ∧
     (run (getOfflineQuestion env topic_slug) w).1 = Ok (Some (cq_question first))) ∧
  (∀ category, ∃ counted,
     (run (getCacheCount env category) w).1 = Ok (Z.of_nat (length counted)) ∧
     counted `sublist_of` stored ∧
     Forall (λ q, t < cq_expires_at q) counted) ∧
  (∀ T0,
     topic_slug ≠ "" →
     Forall (λ q, cq_topic_slug q = topic_slug →
                  cq_cached_at q = T0 ∧ cq_expires_at q = cq_cached_at q + TTL) stored →
     t = T0 + 25 * 60 * 60 * 1000 →
     (run (getOfflineQuestion env topic_slug) w).1 = Ok None ∧
     (run (getCacheCount env (Some topic_slug)) w).1 = Ok 0).
Proof.
  intros t stored. split; [|split].
  - intros first w' Hrun.
    rewrite run_getOfflineQuestion, Hrun. simpl.
    rewrite run_getOfflineQuestion_first in Hrun.
    destruct (read_cached env (Some topic_slug) w) as [|first' rest] eqn:Hread; [done|].
    destruct (io_error env _); [done|]. injection Hrun as -> _.
    assert (Hin : first ∈ read_cached env (Some topic_slug) w)
      by (rewrite Hread; apply list_elem_of_here).
    split; [|split; [|done]].
    + eapply elem_of_sublist; [done|apply read_cached_sublist].
    + pose proof (read_cached_unexpired env (Some topic_slug) w) as Hall.
      rewrite Forall_forall in Hall. by apply Hall.
  - intros category. exists (read_cached env category w).
    rewrite run_getCacheCount. split; [done|]. split.
    + apply read_cached_sublist.
    + apply read_cached_unexpired.
  - intros T0 Hne Hstored Ht.
    assert (Hnone : read_cached env (Some topic_slug) w = []).
    { pose proof (read_cached_topic env topic_slug w Hne) as Htopic.
      pose proof (read_cached_unexpired env (Some topic_slug) w) as Hfresh.
      pose proof (read_cached_sublist env (Some topic_slug) w) as Hsub.
      destruct (read_cached env (Some topic_slug) w) as [|q l]; [done|].
      apply Forall_cons in Htopic as [Htopic _].
      apply Forall_cons in Hfresh as [Hfresh _].
      assert (Hin : q ∈ stored)
        by (eapply elem_of_sublist; [apply list_elem_of_here|exact Hsub]).
      rewrite Forall_forall in Hstored.
      destruct (Hstored q Hin Htopic) as [Hc He].
      unfold unexpired, TTL in *. fold t in Hfresh. lia. }
    rewrite run_getOfflineQuestion, run_getOfflineQuestion_first, run_getCacheCount.
    by rewrite !Hnone.
Qed.

Lemma take_and_count_skip_expired_witness :
  let T0 := 1700000000000 in
  let late := steady_env (T0 + 25 * 60 * 60 * 1000) in
  let early := steady_env (T0 + 5) in
  let w := with_cache (three_arithmetic T0) in
  ((run (getOfflineQuestion late "arithmetic") w).1 = Ok None ∧
   (run (getCacheCount late (Some "arithmetic")) w).1 = Ok 0) ∧
  T0 + 5 < T0 + TTL.
Proof.
  intros T0 late early w. split.
  - apply (proj2 (proj2 (take_and_count_skip_expired late w "arithmetic")) T0).
    + discriminate.
    + repeat constructor.
    + reflexivity.
  - pose proof (proj1 (take_and_count_skip_expired early w "arithmetic")) as Htake.
    specialize (Htake (mkCachedQuestion (cached_id T0 0) "arithmetic" 1 "2+2" T0 (T0 + TTL))
                  (run (getOfflineQuestion_first early "arithmetic") w).2).
    apply Htake. vm_compute. reflexivity.
Defined.

(** C9. A single [take] removes from the persisted cache every item whose
    identifier equals the identifier of the item it returns, not only that
    item: what it persists is the list of all unexpired items filtered by
    [q.id !== first.id], so no item carrying the returned identifier is left,
    and a stored duplicate of that identifier is dropped without ever being
    handed out. *)
Theorem take_drops_every_item_with_returned_id env w topic_slug first w' :
  run (getOfflineQuestion_first env topic_slug) w = (Ok (Some first), w') →
  ∃ allQuestions,
    allQuestions `sublist_of` default [] (CACHED_QUESTIONS (storage w)) ∧
    CACHED_QUESTIONS (storage w')
    = Some (filter (λ q, cq_id q ≠ cq_id first) allQuestions) ∧
    (∀ q, q ∈ default [] (CACHED_QUESTIONS (storage w')) → cq_id q ≠ cq_id first) ∧
    (∀ w'', run (getOfflineQuestion_first env topic_slug) w' ≠ (Ok (Some first), w'')).
Proof.
  intros Hrun. rewrite run_getOfflineQuestion_first in Hrun.
  destruct (read_cached env (Some topic_slug) w) as [|first' rest]; [done|].
  destruct (io_error env _); [done|]. injection Hrun as -> <-.
  set (w0 := after_read_cached env w).
  assert (Hleft : ∀ q, q ∈ filter (other_id (cq_id first)) (read_cached env None w0)
                       → cq_id q ≠ cq_id first).
  { intros q Hq. by apply list_elem_of_filter in Hq as [Hq _]. }
  exists (read_cached env None w0). split; [|split; [|split]].
  - replace (storage w) with (storage w0) by apply storage_after_read_cached.
    apply read_cached_sublist.
  - done.
  - exact Hleft.
  - intros w'' Hagain.
    match type of Hagain with run _ ?w1 = _ => set (w1' := w1) in * end.
    rewrite run_getOfflineQuestion_first in Hagain.
    destruct (read_cached env (Some topic_slug) w1') as [|again rest'] eqn:Hread; [done|].
    destruct (io_error env _); [done|]. injection Hagain as -> _.
    assert (Hin : first ∈ read_cached env (Some topic_slug) w1')
      by (rewrite Hread; apply list_elem_of_here).
    eapply elem_of_sublist in Hin; [|apply read_cached_sublist].
    by apply Hleft in Hin.
Qed.

Lemma take_drops_every_item_with_returned_id_witness :
  let env := steady_env 100 in
  let w := with_cache colliding_cache in
  let first := mkCachedQuestion "cached_7_0" "arithmetic" 1 "2+2" 7 (7 + TTL) in
  let w' := (run (getOfflineQuestion_first env "arithmetic") w).2 in
  CACHED_QUESTIONS (storage w')
  = Some [mkCachedQuestion "cached_7_1" "arithmetic" 1 "5+6" 7 (7 + TTL)].
Proof.
  intros env w first w'.
  destruct (take_drops_every_item_with_returned_id env w "arithmetic" first w')
    as (allQuestions & _ & Hstored & _).
  - vm_compute. reflexivity.
  - vm_compute. reflexivity.
Defined.

(** Two fills that read the same millisecond build the same identifier; the
    take that follows hands out the first of the two items and drops the
    other one with it. *)
Example same_millisecond_fills_collide :
  let env := steady_env 1000 in
  let fills := [Fill "arithmetic" (Some 1) None; Fill "arithmetic" (Some 1) None] in
  let w := (run_cache_ops env fills initial_world).2 in
  cache_ids w = ["cached_1000_0"; "cached_1000_0"] ∧
  cq_question <$> cache w = ["question 0"; "question 1"] ∧
  (run (getOfflineQuestion env "arithmetic") w).1 = Ok (Some "question 0") ∧
  cache (run (getOfflineQuestion env "arithmetic") w).2 = [].
Proof. vm_compute. repeat split; reflexivity. Qed.

(** C10. With no progress snapshot stored ([getProgress] yields [null]),
    [updateLocalMastery] completes without writing anything: the persistent
    store is exactly what it was, the delta is dropped and no snapshot is
    created. *)
Theorem updateLocalMastery_without_snapshot env w topic_slug mastery :
  (run (getProgress env) w).1 = Ok None →
  (run (updateLocalMastery env topic_slug mastery) w).1 = Ok tt ∧
  storage (run (updateLocalMastery env topic_slug mastery) w).2 = storage w.
Proof.
  intros Hnone. rewrite run_getProgress in Hnone. injection Hnone as Hnone.
  unfold updateLocalMastery. rewrite run_bind, run_getProgress, after_Ok, Hnone.
  done.
Qed.

Lemma updateLocalMastery_without_snapshot_witness :
  (run (updateLocalMastery ticking_env "arithmetic" 1) initial_world).1 = Ok tt ∧
  storage (run (updateLocalMastery ticking_env "arithmetic" 1) initial_world).2
  = empty_storage.
Proof.
  apply (updateLocalMastery_without_snapshot ticking_env initial_world "arithmetic" 1).
  reflexivity.
Defined.

(** ** Draining the queue: [syncPendingAnswers] *)

Lemma accepted_cons a (reply : string + AnswerResult) rs :
  accepted ((a, reply) :: rs)
  = match reply with inr response => response :: accepted rs | inl _ => accepted rs end.
Proof. by destruct reply. Qed.

Lemma failed_cons a (reply : string + AnswerResult) rs :
  failed ((a, reply) :: rs)
  = match reply with inl _ => a :: failed rs | inr _ => failed rs end.
Proof. by destruct reply. Qed.

(** Every entry is either accepted or failed, and the failed ones keep their
    relative order. *)
Lemma responses_split env k Q :
  failed (server_responses env k Q) `sublist_of` Q ∧
  (length (accepted (server_responses env k Q))
   + length (failed (server_responses env k Q)) = length Q)%nat.
Proof.
  revert k. induction Q as [|a Q IH]; intros k; [done|].
  destruct (IH (S k)) as [IH1 IH2]. cbn [server_responses].
  rewrite accepted_cons, failed_cons.
  destruct (validate_reply env k (request_of a)); simpl.
  - split; [by apply sublist_skip|lia].
  - split; [by apply sublist_cons|lia].
Qed.

Section Drain.
Variable env : Env.

Lemma total_reward_cons response responses :
  total_reward (response :: responses) = reward response + total_reward responses.
Proof. done. Qed.

Lemma run_sync_loop P : ∀ result remaining w,
  let rs := server_responses env (length (submitted w)) P in
  run (sync_loop env P result remaining) w =
  (Ok (mkSyncResult
         (synced_answers result + Z.of_nat (length (accepted rs)))
         (failed_answers result + Z.of_nat (length (failed rs)))
         (new_xp result + total_reward (accepted rs))
         (errors result ++ diagnostics rs),
       remaining ++ failed rs),
   mkWorld (storage w) (isOnline w) (syncInProgress w) (n_clock w) (n_net w)
           (n_io w) (fetched w) (submitted w ++ (request_of <$> P))).
Proof.
  induction P as [|answer P IH]; intros result remaining w; simpl.
  - destruct result, w; simpl. rewrite !Z.add_0_r, !app_nil_r. done.
  - rewrite run_bind, run_try_catch. simpl.
    fold (request_of answer).
    destruct (validate_reply env (length (submitted w)) (request_of answer))
      as [error|response]; simpl; rewrite after_Ok, IH; simpl;
      rewrite length_app, Nat.add_1_r, <- !app_assoc; simpl.
    + do 3 f_equal. f_equal; lia.
    + do 3 f_equal. f_equal; [lia|].
      rewrite total_reward_cons. unfold reward.
      destruct (xp_earned response) as [xp|]; simpl; [|lia].
      destruct (decide (xp = 0)); lia.
Qed.

(** A call that finds the guard set returns at once. *)
Lemma syncPendingAnswers_guard_set w :
  syncInProgress w = true →
  advance (syncPendingAnswers env) w = (w, ret sync_in_progress_result).
Proof. intros Hbusy. simpl. by rewrite Hbusy. Qed.

Lemma run_syncPendingAnswers_guard_set w :
  syncInProgress w = true →
  run (syncPendingAnswers env) w = (Ok sync_in_progress_result, w).
Proof. intros Hbusy. simpl. by rewrite Hbusy. Qed.

Lemma run_syncPendingAnswers_offline w :
  syncInProgress w = false →
  default false (netinfo env (n_net w)) = false →
  run (syncPendingAnswers env) w
  = (Ok device_offline_result, set_isOnline false (tick_net w)).
Proof.
  intros Hbusy Hnet. unfold syncPendingAnswers.
  rewrite run_bind. simpl (run (gets _) _). rewrite after_Ok, Hbusy.
  rewrite run_bind, run_checkOnline, after_Ok, Hnet. done.
Qed.

End Drain.

(** C1. A completed [drain()]: with the guard clear, the device online and
    the store answering, [syncPendingAnswers] submits every entry of the
    pending list [P] in enqueue order; afterwards the persisted queue holds
    exactly the entries whose submission failed, in their original relative
    order, and the returned result counts the accepted entries as
    [synced_answers], the failed ones as [failed_answers] (with one
    diagnostic each) and reports as [new_xp] the sum of the rewards returned
    for the accepted entries.  The guard is released and the last-sync time
    is written. *)
Theorem syncPendingAnswers_drains_queue env w :
  syncInProgress w = false →
  default false (netinfo env (n_net w)) = true →
  no_io_error env →
  let P := default [] (PENDING_ANSWERS (storage w)) in
  let rs := server_responses env (length (submitted w)) P in
  ∃ result w',
    run (syncPendingAnswers env) w = (Ok result, w') ∧
    submitted w' = submitted w ++ (request_of <$> P) ∧
    PENDING_ANSWERS (storage w') = Some (failed rs) ∧
    failed rs `sublist_of` P ∧
    synced_answers result = Z.of_nat (length (accepted rs)) ∧
    failed_answers result = Z.of_nat (length (failed rs)) ∧
    new_xp result = total_reward (accepted rs) ∧
    errors result = diagnostics rs ∧
    (length (accepted rs) + length (failed rs) = length P)%nat ∧
    LAST_SYNC (storage w') = Some (clock env (n_clock w)) ∧
    syncInProgress w' = false.
Proof.
  intros Hbusy Hnet Hio P rs.
  unfold syncPendingAnswers.
  rewrite run_bind. simpl (run (gets _) _). rewrite after_Ok, Hbusy.
  rewrite run_bind, run_checkOnline, after_Ok, Hnet. simpl negb. cbv iota.
  rewrite run_bind. simpl (run (modify _) _). rewrite after_Ok.
  rewrite run_try_finally.
  rewrite run_bind, run_getPendingAnswers, after_Ok.
  unfold read_pending. rewrite Hio.
  rewrite run_bind, run_sync_loop, after_Ok.
  rewrite run_bind, run_setItem, Hio, after_Ok.
  rewrite run_bind, run_now, after_Ok.
  rewrite run_bind, run_setItem, Hio, after_Ok.
  simpl. fold P. fold rs.
  eexists _, _. split; [reflexivity|]. simpl.
  destruct (responses_split env (length (submitted w)) P) as [Hsub Hlen].
  repeat split; try done; lia.
Qed.

Lemma syncPendingAnswers_drains_queue_witness :
  ∃ result w',
    run (syncPendingAnswers flaky_env) (with_queue [R1; R2; R3]) = (Ok result, w') ∧
    submitted w' = [request_of R1; request_of R2; request_of R3] ∧
    PENDING_ANSWERS (storage w') = Some [R2] ∧
    synced_answers result = 2 ∧ failed_answers result = 1 ∧ new_xp result = 20.
Proof.
  destruct (syncPendingAnswers_drains_queue flaky_env (with_queue [R1; R2; R3]))
    as (result & w' & Hrun & Hsub & Hq & _ & Hs & Hf & Hxp & _).
  - reflexivity.
  - reflexivity.
  - intros k. reflexivity.
  - exists result, w'. repeat split; assumption.
Defined.

(** ** Filling the cache: [cacheQuestions] *)

Section Fill.
Variable env : Env.

Lemma run_filter_unexpired l : ∀ w,
  run (filter_unexpired env l) w
  = (Ok (sweep_from (clock env) (n_clock w) l), tick_clock_by (length l) w).
Proof.
  induction l as [|q l IH]; intros w.
  - destruct w. unfold tick_clock_by. simpl. by rewrite Nat.add_0_r.
  - cbn [filter_unexpired sweep_from].
    rewrite run_bind, run_now, after_Ok.
    rewrite run_bind, IH, after_Ok.
    unfold tick_clock_by. simpl. do 2 f_equal. lia.
Qed.

Lemma run_cacheQuestions_loop topic_slug difficulty_tier t_now expires n :
  ∀ i cached w,
  let batch := fetch_batch env topic_slug difficulty_tier t_now expires n i
                 (length (fetched w)) (n_clock w) in
  run (cacheQuestions_loop env topic_slug difficulty_tier t_now expires n i cached) w
  = (Ok (cached ++ batch),
     mkWorld (storage w) (isOnline w) (syncInProgress w)
             (n_clock w + length batch) (n_net w) (n_io w)
             (fetched w ++ replicate n
                (mkGenerateQuestionParams topic_slug difficulty_tier true))
             (submitted w)).
Proof.
  induction n as [|n IH]; intros i cached w.
  - destruct w. simpl. by rewrite Nat.add_0_r, !app_nil_r.
  - cbn [cacheQuestions_loop fetch_batch].
    rewrite run_bind, run_try_catch. simpl (run (bind (generateQuestion _ _) _) _).
    destruct (generate_reply env (length (fetched w)) _) as [error|question];
      simpl; rewrite after_Ok, IH; simpl;
      rewrite length_app, Nat.add_1_r, <- !app_assoc; simpl.
    + done.
    + do 2 f_equal. lia.
Qed.

Lemma fetch_batch_payloads topic_slug difficulty_tier t_now expires n :
  ∀ i kf kc,
  cq_question <$> fetch_batch env topic_slug difficulty_tier t_now expires n i kf kc
  = successful_fetches env (mkGenerateQuestionParams topic_slug difficulty_tier true) kf n.
Proof.
  unfold successful_fetches.
  induction n as [|n IH]; intros i kf kc; [done|]. simpl.
  destruct (generate_reply env kf _); simpl; by rewrite IH.
Qed.

Lemma fetch_batch_fields topic_slug difficulty_tier t_now expires n :
  ∀ i kf kc,
  Forall (λ q, cq_topic_slug q = topic_slug ∧ cq_cached_at q = t_now ∧
               cq_expires_at q = expires)
    (fetch_batch env topic_slug difficulty_tier t_now expires n i kf kc).
Proof.
  induction n as [|n IH]; intros i kf kc; simpl; [constructor|].
  destruct (generate_reply env kf _); [apply IH|].
  constructor; [done|apply IH].
Qed.

Lemma run_cacheQuestions_offline topic_slug count difficulty_tier w :
  default false (netinfo env (n_net w)) = false →
  run (cacheQuestions env topic_slug count difficulty_tier) w
  = (Ok 0, set_isOnline false (tick_net w)).
Proof.
  intros Hnet. unfold cacheQuestions.
  rewrite run_bind, run_checkOnline, after_Ok, Hnet. done.
Qed.

(** The world in which [cacheQuestions] reads the existing cache, and the
    one in which it sweeps. *)
Lemma run_cacheQuestions_online topic_slug count difficulty_tier w :
  default false (netinfo env (n_net w)) = true →
  let t_now := clock env (n_clock w) in
  let n := Z.to_nat (default 10 count) in
  let cached := fetch_batch env topic_slug difficulty_tier t_now (t_now + TTL) n 0
                  (length (fetched w)) (S (n_clock w)) in
  let w1 := mkWorld (storage w) true (syncInProgress w)
              (S (n_clock w) + length cached) (S (n_net w)) (n_io w)
              (fetched w ++ replicate n
                 (mkGenerateQuestionParams topic_slug difficulty_tier true))
              (submitted w) in
  let existing := read_cached env None w1 in
  let w2 := after_read_cached env w1 in
  let valid := sweep_from (clock env) (n_clock w2) (existing ++ cached) in
  let w3 := tick_clock_by (length (existing ++ cached)) w2 in
  run (cacheQuestions env topic_slug count difficulty_tier) w =
  match io_error env (n_io w3) with
  | Some e => (Throw e, tick_io w3)
  | None => (Ok (Z.of_nat (length cached)),
             tick_io (with_storage (set_CACHED_QUESTIONS valid) w3))
  end.
Proof.
  intros Hnet t_now n cached w1 existing w2 valid w3.
  subst w3 valid w2 existing w1 cached n t_now.
  unfold cacheQuestions.
  rewrite run_bind, run_checkOnline, after_Ok, Hnet. simpl negb. cbv iota.
  rewrite run_bind, run_now, after_Ok.
  rewrite run_bind, run_cacheQuestions_loop, after_Ok. simpl app.
  cbn [tick_clock set_isOnline tick_net storage isOnline syncInProgress
       n_clock n_net n_io fetched submitted].
  rewrite run_bind, run_getCachedQuestions, after_Ok.
  rewrite run_bind, run_filter_unexpired, after_Ok.
  rewrite run_bind, run_setItem.
  destruct (io_error env _); done.
Qed.

End Fill.

(** C3. [fill]: offline, [cacheQuestions] returns 0, sends no request and
    leaves the persisted store as it is.  Online (and with the store
    answering), it sends exactly [count] requests one after the other, a
    failing request being skipped without stopping the batch; it builds one
    item per successful request, each with cached-at equal to the instant
    [t_now] read at the start and expires-at equal to cached-at plus the
    24-hour TTL; it persists the unexpired existing items followed by the new
    ones, swept for expiry; and it returns the number of successful
    requests. *)
Theorem cacheQuestions_fill env w topic_slug count difficulty_tier :
  let n := Z.to_nat (default 10 count) in
  let params := mkGenerateQuestionParams topic_slug difficulty_tier true in
  let successes := successful_fetches env params (length (fetched w)) n in
  let stored := default [] (CACHED_QUESTIONS (storage w)) in
  (default false (netinfo env (n_net w)) = false →
   ∃ w', run (cacheQuestions env topic_slug count difficulty_tier) w = (Ok 0, w') ∧
         storage w' = storage w ∧ fetched w' = fetched w) ∧
  (default false (netinfo env (n_net w)) = true → no_io_error env →
   ∃ cached k1 k2 w',
     run (cacheQuestions env topic_slug count difficulty_tier) w
     = (Ok (Z.of_nat (length successes)), w') ∧
     fetched w' = fetched w ++ replicate n params ∧
     cq_question <$> cached = successes ∧
     Forall (λ q, cq_topic_slug q = topic_slug ∧
                  cq_cached_at q = clock env (n_clock w) ∧
                  cq_expires_at q = cq_cached_at q + TTL) cached ∧
     (n_clock w < k1 ≤ k2)%nat ∧
     CACHED_QUESTIONS (storage w')
     = Some (sweep_from (clock env) k2
               (filter (unexpired (clock env k1)) stored ++ cached))).
Proof.
  intros n params successes stored. split.
  - intros Hnet. rewrite run_cacheQuestions_offline by done.
    eexists. split; [reflexivity|]. done.
  - intros Hnet Hio. rewrite run_cacheQuestions_online by done. rewrite Hio.
    set (t_now := clock env (n_clock w)).
    set (cached := fetch_batch env topic_slug difficulty_tier t_now (t_now + TTL)
                     n 0 (length (fetched w)) (S (n_clock w))).
    set (w1 := mkWorld _ _ _ _ _ _ _ _).
    exists cached, (n_clock w1), (n_clock (after_read_cached env w1)).
    eexists. split; [|split; [|split; [|split; [|split]]]].
    + do 3 f_equal. unfold successes, params.
      by rewrite <- (fetch_batch_payloads env topic_slug difficulty_tier t_now
                       (t_now + TTL) n 0 _ (S (n_clock w))), length_fmap.
    + simpl. unfold after_read_cached.
      destruct (io_error env _), (CACHED_QUESTIONS _); done.
    + apply fetch_batch_payloads.
    + eapply Forall_impl; [apply fetch_batch_fields|].
      intros q (? & Hc & He). rewrite Hc, He. done.
    + pose proof (n_clock_after_read_cached env w1). simpl in *. lia.
    + simpl. do 3 f_equal.
      unfold read_cached. rewrite Hio. simpl. unfold stored.
      destruct (CACHED_QUESTIONS (storage w)); done.
Qed.

Lemma cacheQuestions_fill_witness :
  (run (cacheQuestions offline_env "arithmetic" (Some 3) None) initial_world).1 = Ok 0 ∧
  (run (cacheQuestions flaky_env "arithmetic" (Some 3) None) initial_world).1 = Ok 2.
Proof.
  split.
  - destruct (proj1 (cacheQuestions_fill offline_env initial_world "arithmetic"
                       (Some 3) None)) as (w' & Hrun & _).
    + reflexivity.
    + by rewrite Hrun.
  - destruct (proj2 (cacheQuestions_fill flaky_env initial_world "arithmetic"
                       (Some 3) None)) as (cached & k1 & k2 & w' & Hrun & _).
    + reflexivity.
    + intros k. reflexivity.
    + by rewrite Hrun.
Defined.

(** ** Storage failures *)

(** C7, as stated, fails: a storage write that fails inside [queueAnswer] is
    not caught; the error reaches the caller and the answer is not stored. *)
Lemma queueAnswer_storage_error_escapes :
  (run (queueAnswer failing_write_env "q1" "4" 900 "arithmetic") initial_world).1
  = Throw "disk full" ∧
  ¬ recovers_locally (λ env, queueAnswer env "q1" "4" 900 "arithmetic").
Proof.
  split; [reflexivity|].
  intros Hrec. destruct (Hrec failing_write_env initial_world) as [[] Ha].
  vm_compute in Ha. discriminate.
Qed.

(** C7, amended.  The operations that only read the store recover locally
    from any storage failure: [getCachedQuestions], [getCacheCount],
    [getPendingAnswers] and [getProgress] never throw, and when their read
    fails they answer with the empty default (no items, 0, no answers, no
    snapshot); [updateOfflineStats] swallows every storage error as well.  A
    failing write is not caught: in [queueAnswer] it is thrown to the
    caller. *)
Theorem storage_read_failures_recovered :
  (∀ topic_slug, recovers_locally (λ env, getCachedQuestions env topic_slug)) ∧
  (∀ topic_slug, recovers_locally (λ env, getCacheCount env topic_slug)) ∧
  recovers_locally getPendingAnswers ∧
  recovers_locally getProgress ∧
  (∀ b, recovers_locally (λ env, updateOfflineStats env b)) ∧
  (∀ env w e topic_slug, io_error env (n_io w) = Some e →
     (run (getCachedQuestions env topic_slug) w).1 = Ok [] ∧
     (run (getCacheCount env topic_slug) w).1 = Ok 0 ∧
     (run (getPendingAnswers env) w).1 = Ok [] ∧
     (run (getProgress env) w).1 = Ok None) ∧
  (∀ env w e question_id user_answer response_time_ms topic_slug,
     io_error env (S (n_io w)) = Some e →
     (run (queueAnswer env question_id user_answer response_time_ms topic_slug) w).1
     = Throw e).
Proof.
  unfold recovers_locally. split; [|split; [|split; [|split; [|split; [|split]]]]].
  - intros topic_slug env w. rewrite run_getCachedQuestions. eauto.
  - intros topic_slug env w. rewrite run_getCacheCount. eauto.
  - intros env w. rewrite run_getPendingAnswers. eauto.
  - intros env w. rewrite run_getProgress. eauto.
  - intros b env w. rewrite run_updateOfflineStats_Ok. eauto.
  - intros env w e topic_slug Hfail.
    rewrite run_getCachedQuestions, run_getCacheCount, run_getPendingAnswers,
      run_getProgress.
    unfold read_cached, read_pending, read_progress. by rewrite Hfail.
  - intros env w e question_id user_answer response_time_ms topic_slug Hfail.
    unfold queueAnswer.
    rewrite run_bind, run_now, after_Ok, run_bind, run_now, after_Ok.
    rewrite run_bind, run_getPendingAnswers, after_Ok.
    rewrite run_bind, run_setItem. simpl n_io. by rewrite Hfail.
Qed.

Lemma storage_read_failures_recovered_witness :
  (run (getPendingAnswers failing_write_env)
     (tick_io (with_queue [R1]))).1 = Ok [] ∧
  (run (queueAnswer failing_write_env "q1" "4" 900 "arithmetic") initial_world).1
  = Throw "disk full".
Proof.
  destruct storage_read_failures_recovered as (_ & _ & _ & _ & _ & Hread & Hwrite).
  split.
  - apply (Hread failing_write_env (tick_io (with_queue [R1])) "disk full" None).
    reflexivity.
  - apply (Hwrite failing_write_env initial_world "disk full"). reflexivity.
Defined.

(** ** Identifiers *)

Lemma pending_id_inj t1 t2 : pending_id t1 = pending_id t2 → t1 = t2.
Proof.
  unfold pending_id. intros H.
  apply (inj (String.append "pending_")) in H. by apply (inj pretty) in H.
Qed.

Global Instance pending_id_Inj : Inj (=) (=) pending_id.
Proof. intros t1 t2. apply pending_id_inj. Qed.

Lemma free_of_app c s1 s2 : free_of c s1 → free_of c s2 → free_of c (s1 +:+ s2).
Proof. induction s1 as [|a s1 IH]; simpl; [done|]. intros [? ?] ?. auto. Qed.

(** Splitting at the first occurrence of a separator is unambiguous. *)
Lemma app_separator_inj c s1 s2 r1 r2 :
  free_of c s1 → free_of c s2 →
  s1 +:+ String c r1 = s2 +:+ String c r2 → s1 = s2 ∧ r1 = r2.
Proof.
  revert s2. induction s1 as [|a s1 IH]; intros [|b s2]; simpl.
  - intros _ _ [= ->]. done.
  - intros _ [Hb _] [= <- _]. done.
  - intros [Ha _] _ [= -> _]. done.
  - intros [_ H1] [_ H2] [= -> Heq]. destruct (IH s2 H1 H2 Heq) as [-> ->]. done.
Qed.

Lemma pretty_N_go_free x : ∀ s, free_of "_" s → free_of "_" (pretty_N_go x s).
Proof.
  induction (N.lt_wf_0 x) as [x _ IH]. intros s Hs.
  destruct (decide (x = 0)%N) as [->|Hx]; [by rewrite pretty_N_go_0|].
  rewrite pretty_N_go_step by lia. apply IH.
  - apply N.div_lt; lia.
  - split; [|done]. unfold pretty_N_char. by repeat case_match.
Qed.

Lemma pretty_N_free (x : N) : free_of "_" (pretty x).
Proof.
  unfold pretty, pretty_N. case_decide; [by split|]. by apply pretty_N_go_free.
Qed.

Lemma pretty_Z_free (x : Z) : free_of "_" (pretty x).
Proof.
  destruct x as [|p|p]; unfold pretty, pretty_Z.
  - by split.
  - apply pretty_N_free.
  - apply free_of_app; [by split|apply pretty_N_free].
Qed.

Lemma cached_id_inj t i t' i' : cached_id t i = cached_id t' i' → t = t' ∧ i = i'.
Proof.
  unfold cached_id. intros H.
  apply (inj (String.append "cached_")) in H.
  apply app_separator_inj in H as [Ht Hi]; [|apply pretty_Z_free..].
  split; [by apply (inj pretty) in Ht|by apply (inj pretty) in Hi].
Qed.

(** ** The order of identifiers *)

Lemma string_lt_irrefl a : string_lt a a = false.
Proof. induction a as [|x a IH]; simpl; [done|]. by rewrite decide_True. Qed.

Lemma string_lt_asym a : ∀ b, string_lt a b = true → string_lt b a = false.
Proof.
  induction a as [|x a IH]; intros [|y b]; simpl; try done.
  destruct (decide (x = y)) as [->|Hne].
  - rewrite decide_True by done. apply IH.
  - rewrite decide_False by done. intros Hlt.
    apply bool_decide_eq_true in Hlt. apply bool_decide_eq_false. lia.
Qed.

Lemma string_lt_app p a b : string_lt (p +:+ a) (p +:+ b) = string_lt a b.
Proof. induction p as [|x p IH]; simpl; [done|]. by rewrite decide_True. Qed.

Lemma string_app_assoc (a b c : string) : (a +:+ b) +:+ c = a +:+ (b +:+ c).
Proof.
  induction a as [|x a IH]; [done|].
  change (String x ((a +:+ b) +:+ c) = String x (a +:+ b +:+ c)). by f_equal.
Qed.

Lemma string_length_app (a b : string) :
  String.length (a +:+ b) = (String.length a + String.length b)%nat.
Proof.
  induction a as [|x a IH]; [done|].
  change (S (String.length (a +:+ b)) = S (String.length a + String.length b)).
  by f_equal.
Qed.

(** [pretty_N_go x s] writes the decimal digits of [x], most significant
    first, in front of [s]. *)
Lemma pretty_N_go_app x : ∀ s, pretty_N_go x s = pretty_N_go x "" +:+ s.
Proof.
  induction (N.lt_wf_0 x) as [x _ IH]. intros s.
  destruct (decide (x = 0)%N) as [->|Hx]; [by rewrite !pretty_N_go_0|].
  assert (Hdiv : (x `div` 10 < x)%N) by (apply N.div_lt; lia).
  rewrite !(pretty_N_go_step x) by lia.
  rewrite (IH _ Hdiv (String _ s)), (IH _ Hdiv (String _ "")).
  by rewrite string_app_assoc.
Qed.

Lemma pretty_N_char_lt (d e : N) :
  (d < e < 10)%N →
  pretty_N_char d ≠ pretty_N_char e ∧
  (N_of_ascii (pretty_N_char d) < N_of_ascii (pretty_N_char e))%N.
Proof.
  intros [Hde He].
  assert (Hcases : ∀ n : N, (n < 10)%N →
            n = 0%N ∨ n = 1%N ∨ n = 2%N ∨ n = 3%N ∨ n = 4%N ∨ n = 5%N ∨ n = 6%N
            ∨ n = 7%N ∨ n = 8%N ∨ n = 9%N) by (intros; lia).
  destruct (Hcases d) as [->|[->|[->|[->|[->|[->|[->|[->|[->| ->]]]]]]]]]; [lia|..];
  destruct (Hcases e) as [->|[->|[->|[->|[->|[->|[->|[->|[->| ->]]]]]]]]]; [lia|..];
    try lia; (split; [discriminate|vm_compute; reflexivity]).
Qed.

Lemma pretty_N_go_lt x : ∀ y s1 s2,
  (x < y)%N →
  String.length (pretty_N_go x "") = String.length (pretty_N_go y "") →
  string_lt (pretty_N_go x s1) (pretty_N_go y s2) = true.
Proof.
  induction (N.lt_wf_0 x) as [x _ IH]. intros y s1 s2 Hlt Hlen.
  rewrite (pretty_N_go_step y) in * by lia.
  rewrite (pretty_N_go_app (y `div` 10)%N (String _ "")) in Hlen.
  destruct (decide (x = 0)%N) as [->|Hx].
  { rewrite pretty_N_go_0 in Hlen. rewrite string_length_app in Hlen. simpl in Hlen. lia. }
  rewrite (pretty_N_go_step x) in * by lia.
  rewrite (pretty_N_go_app (x `div` 10)%N (String _ "")) in Hlen.
  rewrite !string_length_app in Hlen. simpl in Hlen.
  assert (Hdiv : (x `div` 10 ≤ y `div` 10)%N) by (apply N.Div0.div_le_mono; lia).
  destruct (decide (x `div` 10 = y `div` 10)%N) as [Heq|Hne].
  - rewrite Heq.
    rewrite (pretty_N_go_app (y `div` 10)%N (String _ s1)).
    rewrite (pretty_N_go_app (y `div` 10)%N (String _ s2)).
    rewrite string_lt_app. simpl.
    assert (Hmod : (x `mod` 10 < y `mod` 10 < 10)%N).
    { pose proof (N.div_mod x 10). pose proof (N.div_mod y 10).
      pose proof (N.mod_lt y 10). lia. }
    destruct (pretty_N_char_lt _ _ Hmod) as [Hne Hord].
    rewrite decide_False by done. by apply bool_decide_eq_true.
  - apply IH; [apply N.div_lt; lia|lia|lia].
Qed.

Lemma pretty_N_go_length_0 x : String.length (pretty_N_go x "") = 0%nat → x = 0%N.
Proof.
  intros Hlen. destruct (decide (x = 0)%N) as [->|Hx]; [done|].
  rewrite pretty_N_go_step, pretty_N_go_app, string_length_app in Hlen by lia.
  simpl in Hlen. lia.
Qed.

Lemma pretty_N_lt (x y : N) :
  (x < y)%N → String.length (pretty x) = String.length (pretty y) →
  string_lt (pretty x) (pretty y) = true.
Proof.
  intros Hlt. unfold pretty, pretty_N.
  rewrite (decide_False (P := y = 0%N)) by lia.
  destruct (decide (x = 0)%N) as [->|Hx]; [|by apply pretty_N_go_lt].
  rewrite (pretty_N_go_step y) by lia.
  rewrite (pretty_N_go_app (y `div` 10)%N (String _ "")), string_length_app.
  simpl. intros Hlen.
  assert (Hdiv : (y `div` 10 = 0)%N) by (apply pretty_N_go_length_0; lia).
  rewrite Hdiv, pretty_N_go_0.
  assert (Hmod : (0 < y `mod` 10 < 10)%N).
  { pose proof (N.div_mod y 10). pose proof (N.mod_lt y 10). lia. }
  destruct (pretty_N_char_lt _ _ Hmod) as [Hne Hord].
  change (String (pretty_N_char 0) "" +:+ "") with (String (pretty_N_char 0) "").
  simpl. rewrite decide_False by done. by apply bool_decide_eq_true.
Qed.

Lemma pretty_Z_nonneg (t : Z) : 0 ≤ t → pretty t = pretty (Z.to_N t).
Proof. intros Ht. destruct t as [|p|p]; [done|done|lia]. Qed.

Lemma pending_id_lt t1 t2 :
  0 ≤ t1 → 0 ≤ t2 →
  String.length (pretty t1) = String.length (pretty t2) →
  string_lt (pending_id t1) (pending_id t2) = true ↔ t1 < t2.
Proof.
  intros H1 H2 Hlen. unfold pending_id. rewrite string_lt_app.
  assert (Hmono : ∀ a b, 0 ≤ a → a < b →
            String.length (pretty a) = String.length (pretty b) →
            string_lt (pretty a) (pretty b) = true).
  { intros a b Ha Hab. rewrite (pretty_Z_nonneg a), (pretty_Z_nonneg b) by lia.
    apply pretty_N_lt. lia. }
  split; [|intros Hlt; by apply Hmono].
  intros Hlt. destruct (decide (t1 < t2)) as [|Hge]; [done|].
  destruct (decide (t1 = t2)) as [->|Hne]; [by rewrite string_lt_irrefl in Hlt|].
  assert (Hrev : string_lt (pretty t2) (pretty t1) = true)
    by (apply Hmono; [done|lia|done]).
  apply string_lt_asym in Hlt. congruence.
Qed.

Lemma pretty_N_go_length (k : nat) : ∀ x,
  (10 ^ N.of_nat k ≤ x < 10 ^ N.of_nat (S k))%N →
  String.length (pretty_N_go x "") = S k.
Proof.
  induction k as [|k IH]; intros x Hx.
  - change (1 ≤ x < 10)%N in Hx.
    rewrite pretty_N_go_step by lia.
    replace (x `div` 10)%N with 0%N by (symmetry; apply N.div_small; lia).
    by rewrite pretty_N_go_0.
  - rewrite !Nat2N.inj_succ, !N.pow_succ_r' in Hx.
    rewrite Nat2N.inj_succ, N.pow_succ_r' in IH.
    assert (Hpos : (0 < 10 ^ N.of_nat k)%N) by (apply N.neq_0_lt_0, N.pow_nonzero; lia).
    rewrite pretty_N_go_step by lia.
    rewrite pretty_N_go_app, string_length_app, IH; [simpl; lia|].
    split.
    + apply N.div_le_lower_bound; lia.
    + apply N.Div0.div_lt_upper_bound; lia.
Qed.

Lemma pretty_thirteen_digits (t : Z) :
  10 ^ 12 ≤ t < 10 ^ 13 → String.length (pretty t) = 13%nat.
Proof.
  intros Ht. rewrite pretty_Z_nonneg by lia.
  unfold pretty, pretty_N. rewrite decide_False by lia.
  apply (pretty_N_go_length 12).
  change (10 ^ N.of_nat 12)%N with (Z.to_N (10 ^ 12)).
  change (10 ^ N.of_nat 13)%N with (Z.to_N (10 ^ 13)). lia.
Qed.

Lemma pending_ids_sorted (k : nat) (ts : list Z) :
  StronglySorted Z.lt ts →
  Forall (λ t, 0 ≤ t ∧ String.length (pretty t) = k) ts →
  StronglySorted (λ a b, string_lt a b = true) (pending_id <$> ts).
Proof.
  induction 1 as [|t ts Hs IH Hall]; intros HF; [constructor|].
  apply Forall_cons in HF as [[Ht Hk] HF].
  rewrite fmap_cons. constructor; [by apply IH|].
  rewrite Forall_fmap. rewrite Forall_forall in Hall, HF |- *.
  intros t' Hin. destruct (HF t' Hin) as [Ht' Hk'].
  apply pending_id_lt; [done|done|congruence|by apply Hall].
Qed.

(** ** Enqueueing: [queueAnswer] *)

Section Enqueue.
Variable env : Env.

Lemma run_queueAnswer question_id user_answer response_time_ms topic_slug w :
  let pending := mkPendingAnswer (pending_id (clock env (n_clock w))) question_id
                   user_answer response_time_ms (clock env (S (n_clock w)))
                   topic_slug in
  let w1 := tick_io (tick_clock (tick_clock w)) in
  run (queueAnswer env question_id user_answer response_time_ms topic_slug) w =
  match io_error env (S (n_io w)) with
  | Some e => (Throw e, tick_io w1)
  | None =>
      run (updateOfflineStats env true)
        (tick_io (with_storage
                    (set_PENDING_ANSWERS (read_pending env w ++ [pending])) w1))
  end.
Proof.
  intros pending w1. subst pending w1. unfold queueAnswer.
  rewrite run_bind, run_now, after_Ok, run_bind, run_now, after_Ok.
  rewrite run_bind, run_getPendingAnswers, after_Ok.
  rewrite run_bind, run_setItem. simpl n_io.
  destruct (io_error env (S (n_io w))); done.
Qed.

Lemma run_updateOfflineStats_true w :
  io_error env (n_io w) = None → io_error env (S (n_io w)) = None →
  run (updateOfflineStats env true) w
  = (Ok tt,
     tick_io (with_storage
                (set_OFFLINE_STATS
                   (mkOfflineStats
                      (questions_answered_offline
                         (default (mkOfflineStats 0 None) (OFFLINE_STATS (storage w))) + 1)
                      (Some (clock env (n_clock w)))))
                (tick_clock (tick_io w)))).
Proof.
  intros Hread Hwrite. unfold updateOfflineStats.
  rewrite run_try_catch, run_bind, run_getItem, Hread, after_Ok.
  rewrite run_bind, run_bind, run_now, after_Ok, run_ret, after_Ok, run_setItem.
  simpl n_io. by rewrite Hwrite.
Qed.

(** With the store answering, one call appends one entry, stamped with the
    clock reading taken first, and reads the clock three times. *)
Lemma queueAnswer_appends question_id user_answer response_time_ms topic_slug w :
  no_io_error env →
  let w' := (run (queueAnswer env question_id user_answer response_time_ms
                    topic_slug) w).2 in
  queue w' = queue w ++
             [mkPendingAnswer (pending_id (clock env (n_clock w))) question_id
                user_answer response_time_ms (clock env (S (n_clock w))) topic_slug] ∧
  n_clock w' = (n_clock w + 3)%nat.
Proof.
  intros Hio w'. subst w'.
  rewrite run_queueAnswer, Hio, run_updateOfflineStats_true by apply Hio.
  unfold queue, read_pending. rewrite Hio. simpl. split; [done|lia].
Qed.

Lemma run_enqueues_ids calls :
  no_io_error env →
  ∀ w,
    pa_id <$> queue (run_enqueues env calls w)
    = (pa_id <$> queue w) ++ (pending_id <$> call_times env (n_clock w) (length calls)) ∧
    recorded_call <$> queue (run_enqueues env calls w)
    = (recorded_call <$> queue w) ++ calls.
Proof.
  intros Hio. induction calls as [|c calls IH]; intros w.
  - simpl. by rewrite !app_nil_r.
  - cbn [run_enqueues length call_times].
    destruct (queueAnswer_appends (enq_question_id c) (enq_user_answer c)
                (enq_response_time_ms c) (enq_topic_slug c) w Hio) as [Hq Hc].
    set (w' := (run _ w).2) in *.
    destruct (IH w') as [Hids Hcalls].
    rewrite Hids, Hcalls, Hq, Hc, !fmap_app, <- !app_assoc. simpl.
    by destruct c.
Qed.

End Enqueue.

(** C6, as stated, fails: two [queueAnswer] calls that read the same
    millisecond from the clock are given the same identifier. *)
Lemma enqueue_same_millisecond_same_id :
  let calls := [mkEnqueue "q1" "4" 900 "arithmetic";
                mkEnqueue "q2" "7" 1200 "arithmetic"] in
  let ids := pa_id <$> queue (run_enqueues (steady_env 1000) calls initial_world) in
  ids = ["pending_1000"; "pending_1000"] ∧ ¬ NoDup ids.
Proof.
  intros calls ids.
  assert (Hids : ids = ["pending_1000"; "pending_1000"]) by (vm_compute; reflexivity).
  split; [done|]. rewrite Hids. intros Hnd.
  apply NoDup_cons in Hnd as [Hnotin _]. apply Hnotin. apply list_elem_of_here.
Qed.

(** Why the number of digits matters: as strings, an identifier with more
    digits can order before one with fewer, as at the first reading with 14
    digits (in November 2286). *)
Example more_digits_can_order_first :
  string_lt (pending_id 10000000000000) (pending_id 9999999999999) = true ∧
  string_lt (pending_id 9999999999999) (pending_id 10000000000000) = false.
Proof. split; vm_compute; reflexivity. Qed.

(** C6, amended.  Every [queueAnswer] call, awaited or not and whatever
    the store does, stamps its entry with the identifier [pending_<t>], [t]
    being the millisecond it reads from the clock when it is called, and its
    write, when the store accepts it, stores the queue the call read followed
    by that entry.  Two identifiers are equal exactly when their readings are
    equal.  For non-negative readings with the same number of decimal
    digits, as all readings from September 2001 to November 2286 have (13
    digits), the identifier of the later reading orders after that of the
    earlier one as a string, and only then.  So, for any series of awaited
    calls on any queue, the store answering, the queue grows by the new
    entries in call order, the new identifiers are pairwise distinct exactly
    when the calls read pairwise distinct milliseconds, and they are in
    increasing order when each call reads a strictly later millisecond, all
    readings being non-negative with the same number of digits. *)
Theorem enqueue_ids_time_ordered env :
  (∀ c w w1 w2,
     storage (enqueue_through env c w w1 w2)
     = match io_error env (n_io w2) with
       | Some _ => storage w2
       | None =>
           set_PENDING_ANSWERS
             (read_pending env w1
              ++ [enqueued c (clock env (n_clock w)) (clock env (S (n_clock w)))])
             (storage w2)
       end) ∧
  (∀ t1 t2, pending_id t1 = pending_id t2 ↔ t1 = t2) ∧
  (∀ t1 t2, 0 ≤ t1 → 0 ≤ t2 →
     String.length (pretty t1) = String.length (pretty t2) →
     (string_lt (pending_id t1) (pending_id t2) = true ↔ t1 < t2)) ∧
  (∀ t, 10 ^ 12 ≤ t < 10 ^ 13 → String.length (pretty t) = 13%nat) ∧
  (no_io_error env →
   ∀ calls w,
     let q := queue (run_enqueues env calls w) in
     let ts := call_times env (n_clock w) (length calls) in
     pa_id <$> q = (pa_id <$> queue w) ++ (pending_id <$> ts) ∧
     recorded_call <$> q = (recorded_call <$> queue w) ++ calls ∧
     (NoDup (pending_id <$> ts) ↔ NoDup ts) ∧
     (∀ k, StronglySorted Z.lt ts →
           Forall (λ t, 0 ≤ t ∧ String.length (pretty t) = k) ts →
           StronglySorted (λ a b, string_lt a b = true) (pending_id <$> ts))).
Proof.
  split; [|split; [|split; [|split]]].
  - intros c w w1 w2. unfold enqueue_through, enqueued, read_pending. simpl.
    destruct (io_error env (n_io w1)); simpl;
      destruct (io_error env (n_io w2)); reflexivity.
  - intros t1 t2. split; [apply pending_id_inj|by intros ->].
  - apply pending_id_lt.
  - apply pretty_thirteen_digits.
  - intros Hio calls w q ts.
    destruct (run_enqueues_ids env calls Hio w) as [Hids Hcalls].
    split; [done|]. split; [done|]. split.
    + apply NoDup_fmap. apply _.
    + intros k. apply pending_ids_sorted.
Qed.

Lemma enqueue_ids_time_ordered_witness :
  let calls := [mkEnqueue "q1" "4" 900 "arithmetic";
                mkEnqueue "q2" "7" 1200 "arithmetic"] in
  pa_id <$> queue (run_enqueues ticking_env calls (with_queue [R1]))
  = ["pending_1"; "pending_1000"; "pending_1003"] ∧
  string_lt "pending_1000" "pending_1003" = true ∧
  String.length (pretty 1700000000000) = 13%nat.
Proof.
  intros calls.
  destruct (enqueue_ids_time_ordered ticking_env)
    as (_ & _ & Horder & Hdigits & Hseries).
  split; [|split].
  - destruct (Hseries (λ k, eq_refl) calls (with_queue [R1])) as (Hids & _).
    rewrite Hids. vm_compute. reflexivity.
  - apply (Horder 1000 1003); [lia|lia|reflexivity|lia].
  - apply Hdigits. lia.
Defined.

(** ** At-most-once delivery of cached items *)

Section Delivery.
Variable env : Env.

Lemma sweep_from_sublist clk l : ∀ k, sweep_from clk k l `sublist_of` l.
Proof.
  induction l as [|q l IH]; intros k; simpl; [done|].
  case_decide; [by apply sublist_skip|by apply sublist_cons].
Qed.

Lemma cache_after_read_cached w : cache (after_read_cached env w) = cache w.
Proof. unfold cache. by rewrite storage_after_read_cached. Qed.

(** What one take does to the persisted identifiers. *)
Lemma take_step topic_slug w :
  let r := run (getOfflineQuestion_first env topic_slug) w in
  cache_ids r.2 `sublist_of` cache_ids w ∧
  (n_clock w ≤ n_clock r.2)%nat ∧
  (∀ first, r.1 = Ok (Some first) →
     cq_id first ∈ cache_ids w ∧ cq_id first ∉ cache_ids r.2).
Proof.
  intros r. subst r. rewrite run_getOfflineQuestion_first.
  set (w0 := after_read_cached env w). set (w1 := after_read_cached env w0).
  assert (Hc0 : (n_clock w ≤ n_clock w0)%nat) by apply n_clock_after_read_cached.
  assert (Hc1 : (n_clock w0 ≤ n_clock w1)%nat) by apply n_clock_after_read_cached.
  assert (Hs0 : cache w0 = cache w) by apply cache_after_read_cached.
  assert (Hs1 : cache w1 = cache w0) by apply cache_after_read_cached.
  destruct (read_cached env (Some topic_slug) w) as [|first rest] eqn:Hread.
  { simpl. unfold cache_ids. rewrite Hs0. done. }
  destruct (io_error env (n_io w1)) as [e|]; simpl.
  { change (cache_ids (tick_io w1)) with (cq_id <$> cache w1).
    rewrite Hs1, Hs0. split; [done|]. split; [lia|done]. }
  unfold cache_ids at 1 3. unfold cache. simpl.
  assert (Hsub : read_cached env None w0 `sublist_of` cache w).
  { rewrite <- Hs0. apply read_cached_sublist. }
  split; [|split; [lia|]].
  - apply fmap_sublist. etrans; [apply sublist_filter|done].
  - intros first' [= <-]. split.
    + apply list_elem_of_fmap_2.
      eapply elem_of_sublist; [|apply read_cached_sublist].
      rewrite Hread. apply list_elem_of_here.
    + intros Hin. apply list_elem_of_fmap in Hin as (q & Hid & Hq).
      apply list_elem_of_filter in Hq as [Hq _]. apply Hq. by symmetry.
Qed.

(** What one fill does to them: it keeps some of the persisted identifiers
    and adds some of those it builds. *)
Lemma fill_step topic_slug count difficulty_tier w :
  let w' := (run (cacheQuestions env topic_slug count difficulty_tier) w).2 in
  cache_ids w' `sublist_of`
    cache_ids w ++ fill_ids env topic_slug count difficulty_tier w ∧
  (fill_ids env topic_slug count difficulty_tier w = [] ∨
   n_clock w + S (length (fill_ids env topic_slug count difficulty_tier w))
   ≤ n_clock w')%nat.
Proof.
  intros w'. subst w'. unfold fill_ids.
  destruct (default false (netinfo env (n_net w))) eqn:Hnet.
  2:{ rewrite run_cacheQuestions_offline by done. simpl.
      rewrite app_nil_r. split; [done|by left]. }
  rewrite run_cacheQuestions_online by done.
  set (t_now := clock env (n_clock w)).
  set (cached := fetch_batch env topic_slug difficulty_tier t_now (t_now + TTL)
                   _ 0 (length (fetched w)) (S (n_clock w))).
  set (w1 := mkWorld _ _ _ _ _ _ _ _).
  set (w2 := after_read_cached env w1).
  set (merged := read_cached env None w1 ++ cached).
  assert (Hc2 : (n_clock w1 ≤ n_clock w2)%nat) by apply n_clock_after_read_cached.
  assert (Hs2 : cache w2 = cache w) by exact (cache_after_read_cached w1).
  simpl in Hc2. rewrite length_fmap.
  destruct (io_error env _) as [e|]; simpl.
  - split; [|right; lia]. unfold cache_ids. unfold cache at 1. simpl. fold (cache w2).
    rewrite Hs2. by apply sublist_inserts_r.
  - split; [|right; lia]. unfold cache_ids. unfold cache at 1. simpl.
    rewrite <- fmap_app. apply fmap_sublist.
    etrans; [apply sweep_from_sublist|]. unfold merged.
    apply sublist_app; [|done].
    replace (cache w) with (cache w1) by done. apply read_cached_sublist.
Qed.

(** The identifiers handed out so far, followed by those still persisted,
    are pairwise distinct and were all built earlier. *)
Lemma run_cache_ops_distinct ops :
  ∀ w (taken : list CachedQuestion) (past : list string),
    NoDup (past ++ built_ids env ops w) →
    (∀ id, id ∈ (cq_id <$> taken) ++ cache_ids w → id ∈ past) →
    NoDup ((cq_id <$> taken) ++ cache_ids w) →
    NoDup (cq_id <$> (taken ++ (run_cache_ops env ops w).1)).
Proof.
  induction ops as [|[topic_slug count difficulty_tier|topic_slug] ops IH];
    intros w taken past Hbuilt Hpast Hnd.
  - simpl. rewrite app_nil_r. by apply NoDup_app in Hnd as [? _].
  - cbn [run_cache_ops built_ids] in *.
    destruct (fill_step topic_slug count difficulty_tier w) as [Hsub _].
    set (w' := (run _ w).2) in *.
    set (batch := fill_ids env topic_slug count difficulty_tier w) in *.
    rewrite app_assoc in Hbuilt.
    assert (Hfresh : NoDup (past ++ batch))
      by (by apply NoDup_app in Hbuilt as [? _]).
    apply NoDup_app in Hfresh as (_ & Hfresh & Hbatch).
    assert (Hall : NoDup (((cq_id <$> taken) ++ cache_ids w) ++ batch)).
    { apply NoDup_app. split; [done|]. split; [|done].
      intros id Hold. apply Hfresh. by apply Hpast. }
    assert (Hsub' : (cq_id <$> taken) ++ cache_ids w'
                    `sublist_of` ((cq_id <$> taken) ++ cache_ids w) ++ batch).
    { rewrite <- app_assoc. by apply sublist_app. }
    apply (IH w' taken (past ++ batch)); [done| |].
    + intros id Hid. eapply elem_of_sublist in Hid; [|exact Hsub'].
      apply elem_of_app in Hid as [Hid|Hid]; apply elem_of_app; auto.
    + eapply sublist_NoDup; [exact Hall|exact Hsub'].
  - cbn [run_cache_ops built_ids] in *.
    destruct (take_step topic_slug w) as (Hsub & _ & Hfirst).
    set (r := run (getOfflineQuestion_first env topic_slug) w) in *.
    assert (Hsub' : (cq_id <$> taken) ++ cache_ids r.2
                    `sublist_of` (cq_id <$> taken) ++ cache_ids w)
      by (by apply sublist_app).
    assert (Hskip : NoDup (cq_id <$> (taken ++ (run_cache_ops env ops r.2).1))).
    { apply (IH r.2 taken past); [done| |].
      - intros id Hid. apply Hpast. by eapply elem_of_sublist.
      - eapply sublist_NoDup; [exact Hnd|exact Hsub']. }
    simpl. destruct (r.1) as [[first|]|e] eqn:Hr; [|done..].
    destruct (Hfirst first eq_refl) as [Hin Hout].
    replace (taken ++ first :: (run_cache_ops env ops r.2).1)
      with ((taken ++ [first]) ++ (run_cache_ops env ops r.2).1)
      by (by rewrite <- app_assoc).
    apply NoDup_app in Hnd as (Hnd1 & Hdisj & Hnd2).
    apply (IH r.2 (taken ++ [first]) past); [done| |].
    + rewrite fmap_app, <- app_assoc. simpl.
      intros id Hid. apply Hpast. apply elem_of_app in Hid as [Hid|Hid];
        [by apply elem_of_app; left|].
      apply elem_of_app; right.
      apply elem_of_cons in Hid as [->|Hid]; [done|].
      exact (elem_of_sublist _ _ _ Hid Hsub).
    + rewrite fmap_app, <- app_assoc. simpl.
      apply NoDup_app. split; [done|]. split.
      * intros id Hid Hid'. apply (Hdisj id Hid).
        apply elem_of_cons in Hid' as [->|Hid']; [done|].
        exact (elem_of_sublist _ _ _ Hid' Hsub).
      * apply NoDup_cons. split; [done|]. exact (sublist_NoDup _ _ Hnd2 Hsub).
Qed.

(** Under a clock that never shows an instant twice, the fills never build
    an identifier twice. *)
Section Ticking.
Hypothesis Hclk : strictly_increasing (clock env).

Lemma stamped_mono lo hi lo' hi' id :
  (lo' ≤ lo)%nat → (hi ≤ hi')%nat → stamped env lo hi id → stamped env lo' hi' id.
Proof. intros ? ? (k & i & ? & ->). exists k, i. split; [lia|done]. Qed.

Lemma stamped_apart lo hi lo' hi' id id' :
  (hi ≤ lo')%nat → stamped env lo hi id → stamped env lo' hi' id' → id ≠ id'.
Proof.
  intros Hsep (k & i & Hk & ->) (k' & i' & Hk' & ->) Heq.
  apply cached_id_inj in Heq as [Heq _].
  apply strictly_increasing_inj in Heq; [lia|done].
Qed.

Lemma fetch_batch_ids topic_slug difficulty_tier t_now expires n :
  ∀ i kf kc,
  let batch := fetch_batch env topic_slug difficulty_tier t_now expires n i kf kc in
  Forall (stamped env kc (kc + length batch)) (cq_id <$> batch) ∧
  NoDup (cq_id <$> batch).
Proof.
  induction n as [|n IH]; intros i kf kc; simpl; [split; constructor|].
  destruct (generate_reply env kf _) as [error|question]; [apply IH|].
  destruct (IH (S i) (S kf) (S kc)) as [IHs IHn]. simpl. split.
  - constructor.
    + exists kc, i. split; [lia|done].
    + eapply Forall_impl; [exact IHs|]. intros id. apply stamped_mono; lia.
  - apply NoDup_cons. split; [|done]. intros Hin.
    rewrite Forall_forall in IHs. apply IHs in Hin.
    eapply (stamped_apart kc (S kc)); [| |exact Hin|reflexivity]; [lia|].
    exists kc, i. split; [lia|done].
Qed.

Lemma fill_ids_stamped topic_slug count difficulty_tier w :
  let ids := fill_ids env topic_slug count difficulty_tier w in
  Forall (stamped env (n_clock w) (n_clock w + S (length ids))) ids ∧ NoDup ids.
Proof.
  intros ids. subst ids. unfold fill_ids.
  destruct (default false (netinfo env (n_net w))); [|split; constructor].
  set (t_now := clock env (n_clock w)).
  destruct (fetch_batch_ids topic_slug difficulty_tier t_now (t_now + TTL)
              (Z.to_nat (default 10 count)) 0 (length (fetched w)) (S (n_clock w)))
    as [Hstamped Hnodup].
  split; [|done]. rewrite length_fmap.
  eapply Forall_impl; [exact Hstamped|]. intros id. apply stamped_mono; lia.
Qed.

Lemma built_ids_distinct ops :
  ∀ w, ∃ hi, Forall (stamped env (n_clock w) hi) (built_ids env ops w) ∧
             NoDup (built_ids env ops w).
Proof.
  induction ops as [|[topic_slug count difficulty_tier|topic_slug] ops IH]; intros w.
  - exists 0%nat. split; constructor.
  - cbn [built_ids].
    destruct (fill_step topic_slug count difficulty_tier w) as [_ Hc].
    destruct (fill_ids_stamped topic_slug count difficulty_tier w) as [Hs Hn].
    set (w' := (run _ w).2) in *.
    set (batch := fill_ids env topic_slug count difficulty_tier w) in *.
    destruct (IH w') as (hi & Hs' & Hn').
    assert (Hw' : (n_clock w ≤ n_clock w')%nat).
    { subst w'. destruct (default false (netinfo env (n_net w))) eqn:Hnet.
      - destruct Hc as [Hc|Hc]; [|lia].
        rewrite run_cacheQuestions_online by done.
        pose proof (n_clock_after_read_cached env) as Hread.
        destruct (io_error env _); simpl;
          match goal with |- context [after_read_cached env ?w1] =>
            specialize (Hread w1); simpl in Hread end; lia.
      - by rewrite run_cacheQuestions_offline. }
    assert (Hbatch : Forall (stamped env (n_clock w) (n_clock w')) batch).
    { destruct Hc as [->|Hc]; [constructor|].
      eapply Forall_impl; [exact Hs|]. intros id. apply stamped_mono; lia. }
    exists (Nat.max hi (n_clock w')). split.
    + apply Forall_app. split.
      * eapply Forall_impl; [exact Hbatch|]. intros id. apply stamped_mono; lia.
      * eapply Forall_impl; [exact Hs'|]. intros id. apply stamped_mono; lia.
    + apply NoDup_app. split; [done|]. split; [|done].
      intros id Hid Hid'. rewrite Forall_forall in Hbatch, Hs'.
      by eapply (stamped_apart (n_clock w) (n_clock w')); [|apply Hbatch|apply Hs'|].
  - cbn [built_ids].
    destruct (take_step topic_slug w) as (_ & Hc & _).
    destruct (IH (run (getOfflineQuestion_first env topic_slug) w).2) as (hi & Hs & Hn).
    exists hi. split; [|done].
    eapply Forall_impl; [exact Hs|]. intros id. apply stamped_mono; lia.
Qed.

End Ticking.

End Delivery.

(** C5, as stated, fails, in two ways.  Identifiers repeat: one that was
    handed out and removed is built again by a later fill that reads the
    same millisecond, and the next take hands it out a second time.  And the
    removal is not atomic: a take reads the persisted set twice and writes
    it once, suspending before each step, so of two takes started back to
    back on a set with pairwise distinct identifiers, the second reads the
    set before the first has written it, and both hand out the same item. *)
Lemma take_returns_same_id_twice :
  (let ops := [Fill "arithmetic" (Some 1) None; Take "arithmetic";
               Fill "arithmetic" (Some 1) None; Take "arithmetic"] in
   let taken := (run_cache_ops (steady_env 1000) ops initial_world).1 in
   cq_id <$> taken = ["cached_1000_0"; "cached_1000_0"] ∧ ¬ NoDup (cq_id <$> taken)) ∧
  (let w := with_cache sample_cache in
   let r := overlapping_takes ticking_env "arithmetic" w in
   let item := mkCachedQuestion "cached_0_0" "arithmetic" 1 "2+2" 0 TTL in
   NoDup (cache_ids w) ∧
   r.1.2 = Ret (Ok (Some item)) ∧ r.2 = Ret (Ok (Some item)) ∧
   cache_ids r.1.1 = ["cached_0_1"; "cached_3600000_0"]).
Proof.
  split.
  - intros ops taken.
    assert (Hids : cq_id <$> taken = ["cached_1000_0"; "cached_1000_0"])
      by (vm_compute; reflexivity).
    split; [done|]. rewrite Hids. intros Hnd.
    apply NoDup_cons in Hnd as [Hnotin _]. apply Hnotin. apply list_elem_of_here.
  - intros w r item. split; [|split; [|split]].
    + apply (bool_decide_unpack _). vm_compute. exact I.
    + vm_compute. reflexivity.
    + vm_compute. reflexivity.
    + vm_compute. reflexivity.
Qed.

(** C5, amended.  At-most-once delivery holds for calls made one after the
    other, each awaited, as long as no identifier is built twice: over any
    such sequence of fill and take calls (whatever the network, the server
    and the store answer, and whatever the persisted set holds at the
    start), if the identifiers persisted at the start and those built by the
    fills are pairwise distinct, then no two takes return the same
    identifier; and when a take returns an item, no item with that
    identifier is left in the persisted set.  Identifiers are
    [cached_<Date.now()>_<index>], so the fills build pairwise distinct ones
    in particular when the clock never shows the same millisecond twice
    ([built_ids_distinct]). *)
Theorem take_never_repeats_an_id env ops w :
  NoDup (cache_ids w ++ built_ids env ops w) →
  NoDup (cq_id <$> (run_cache_ops env ops w).1) ∧
  (∀ topic_slug w1 first w2,
     run (getOfflineQuestion_first env topic_slug) w1 = (Ok (Some first), w2) →
     cq_id first ∈ cache_ids w1 ∧ cq_id first ∉ cache_ids w2).
Proof.
  intros Hbuilt. split.
  - apply (run_cache_ops_distinct env ops w [] (cache_ids w)); [done|done|].
    simpl. by apply NoDup_app in Hbuilt as [? _].
  - intros topic_slug w1 first w2 Hrun.
    destruct (take_step env topic_slug w1) as (_ & _ & Hfirst).
    rewrite Hrun in Hfirst. by destruct (Hfirst first eq_refl).
Qed.

Lemma take_never_repeats_an_id_witness :
  let ops := [Take "arithmetic"; Fill "arithmetic" (Some 2) None; Take "arithmetic";
              Fill "arithmetic" (Some 1) None; Take "arithmetic"; Take "arithmetic"] in
  NoDup (cq_id <$> (run_cache_ops ticking_env ops (with_cache sample_cache)).1).
Proof.
  intros ops.
  apply (take_never_repeats_an_id ticking_env ops (with_cache sample_cache)).
  apply (bool_decide_unpack _). vm_compute. exact I.
Defined.

(** ** Overlapping drains *)

(** The guard is raised only after the connectivity probe has been awaited:
    a call that starts while an earlier call is suspended at that probe
    still finds the guard clear and is not turned away. *)
Lemma second_drain_passes_guard env w :
  syncInProgress w = false →
  let first := advance (syncPendingAnswers env) w in
  let second := advance (syncPendingAnswers env) first.1 in
  first.1 = w ∧ (∀ o, first.2 ≠ Ret o) ∧
  second.1 = w ∧ (∀ o, second.2 ≠ Ret o).
Proof.
  intros Hbusy first second. subst second first.
  simpl. rewrite Hbusy. simpl. rewrite Hbusy. simpl. done.
Qed.

(** C2 at work on the code: [drain()] is called twice in a row on a queue
    holding [R1], online.  The second call is made while the first is in
    progress (suspended at its connectivity probe).  It is not answered with
    "Sync already in progress": both calls run the whole loop, [R1] is
    submitted twice, and each call reports one synced answer. *)
Theorem overlapping_drains_submit_twice :
  let r := overlapping_drains ticking_env alternating (with_queue [R1]) in
  r.1.2 = Ret (Ok (mkSyncResult 1 0 10 [])) ∧
  r.2 = Ret (Ok (mkSyncResult 1 0 10 [])) ∧
  r.2 ≠ Ret (Ok sync_in_progress_result) ∧
  submitted r.1.1 = [request_of R1; request_of R1].
Proof.
  intros r. subst r. vm_compute.
  split; [reflexivity|]. split; [reflexivity|]. split; [discriminate|reflexivity].
Qed.

(** * Further properties of the service *)

(** ** Drains, step by step *)

Section DrainOutcomes.
Variable env : Env.

(** A drain that passes both guards, whatever the store does. *)
Lemma run_syncPendingAnswers_online w :
  syncInProgress w = false →
  default false (netinfo env (n_net w)) = true →
  let P := read_pending env w in
  let rs := server_responses env (length (submitted w)) P in
  let w2 := after_sync_loop P w in
  let w3 := tick_clock (tick_io (with_storage (set_PENDING_ANSWERS (failed rs)) w2)) in
  run (syncPendingAnswers env) w =
  match io_error env (S (n_io w)) with
  | Some e => (Throw e, set_syncInProgress false (tick_io w2))
  | None =>
      match io_error env (S (S (n_io w))) with
      | Some e => (Throw e, set_syncInProgress false (tick_io w3))
      | None =>
          (Ok (drain_result rs),
           set_syncInProgress false
             (tick_io (with_storage (set_LAST_SYNC (clock env (n_clock w))) w3)))
      end
  end.
Proof.
  intros Hbusy Hnet P rs w2 w3. subst w3 w2 rs P.
  unfold syncPendingAnswers.
  rewrite run_bind. simpl (run (gets _) _). rewrite after_Ok, Hbusy.
  rewrite run_bind, run_checkOnline, after_Ok, Hnet. simpl negb. cbv iota.
  rewrite run_bind. simpl (run (modify _) _). rewrite after_Ok.
  rewrite run_try_finally.
  rewrite run_bind, run_getPendingAnswers, after_Ok.
  rewrite run_bind, run_sync_loop, after_Ok.
  rewrite run_bind, run_setItem.
  cbn [tick_io set_syncInProgress set_isOnline tick_net storage isOnline
       syncInProgress n_clock n_net n_io fetched submitted].
  change (read_pending env (set_syncInProgress true (set_isOnline true (tick_net w))))
    with (read_pending env w).
  destruct (io_error env (S (n_io w))) as [e|]; [done|].
  rewrite after_Ok, run_bind, run_now, after_Ok, run_bind, run_setItem.
  cbn [tick_io tick_clock with_storage storage isOnline
       syncInProgress n_clock n_net n_io fetched submitted].
  destruct (io_error env (S (S (n_io w)))) as [e|]; [done|].
  rewrite after_Ok, run_ret. unfold drain_result, after_sync_loop. simpl.
  done.
Qed.

End DrainOutcomes.

(** X1. A drain started offline does nothing: with the guard clear and the
    connectivity probe answering "not connected" (or nothing),
    [syncPendingAnswers] returns the zero result annotated "Device is
    offline", sends no request, leaves the persistent store untouched and
    does not raise the guard. *)
Theorem syncPendingAnswers_offline_is_noop env w :
  syncInProgress w = false →
  default false (netinfo env (n_net w)) = false →
  ∃ w', run (syncPendingAnswers env) w = (Ok device_offline_result, w') ∧
        storage w' = storage w ∧ submitted w' = submitted w ∧
        syncInProgress w' = false ∧ isOnline w' = false.
Proof.
  intros Hbusy Hnet. rewrite run_syncPendingAnswers_offline by done.
  eexists. split; [reflexivity|]. by simpl.
Qed.

Lemma syncPendingAnswers_offline_is_noop_witness :
  ∃ w', run (syncPendingAnswers offline_env) (with_queue [R1; R2]) =
        (Ok device_offline_result, w') ∧
        storage w' = storage (with_queue [R1; R2]) ∧
        submitted w' = [] ∧ syncInProgress w' = false ∧ isOnline w' = false.
Proof.
  apply (syncPendingAnswers_offline_is_noop offline_env (with_queue [R1; R2]));
    reflexivity.
Defined.

(** X2. The guard is always released: a [syncPendingAnswers] call that
    starts with the guard clear ends with the guard clear, whatever the
    network, the server and the store do, also when the call throws. *)
Theorem syncPendingAnswers_releases_guard env w :
  syncInProgress w = false →
  syncInProgress (run (syncPendingAnswers env) w).2 = false.
Proof.
  intros Hbusy.
  destruct (default false (netinfo env (n_net w))) eqn:Hnet.
  - rewrite run_syncPendingAnswers_online by done.
    destruct (io_error env (S (n_io w))); [done|].
    destruct (io_error env (S (S (n_io w)))); done.
  - by rewrite run_syncPendingAnswers_offline.
Qed.

Lemma syncPendingAnswers_releases_guard_witness :
  (run (syncPendingAnswers failing_write_env) (with_queue [R1])).1 = Throw "disk full" ∧
  syncInProgress (run (syncPendingAnswers failing_write_env) (with_queue [R1])).2 = false.
Proof.
  split; [reflexivity|].
  apply (syncPendingAnswers_releases_guard failing_write_env (with_queue [R1])).
  reflexivity.
Defined.

(** X3. A failed read empties the queue: when the store fails the read of
    the pending answers but accepts the two writes that follow, the drain
    takes the queue to be empty, sends no request, reports zero successes and
    zero failures, and overwrites the persisted queue with the empty list:
    the answers that were pending are gone. *)
Theorem drain_after_failed_read_erases_queue env w e :
  syncInProgress w = false →
  default false (netinfo env (n_net w)) = true →
  io_error env (n_io w) = Some e →
  io_error env (S (n_io w)) = None →
  io_error env (S (S (n_io w))) = None →
  ∃ w', run (syncPendingAnswers env) w = (Ok (mkSyncResult 0 0 0 []), w') ∧
        submitted w' = submitted w ∧
        PENDING_ANSWERS (storage w') = Some [] ∧
        LAST_SYNC (storage w') = Some (clock env (n_clock w)).
Proof.
  intros Hbusy Hnet Hread Hw1 Hw2.
  rewrite run_syncPendingAnswers_online by done. rewrite Hw1, Hw2.
  unfold read_pending. rewrite Hread. simpl.
  eexists. split; [reflexivity|]. simpl. by rewrite app_nil_r.
Qed.

Lemma drain_after_failed_read_erases_queue_witness :
  ∃ w', run (syncPendingAnswers failing_read_env) (with_queue [R1; R2; R3]) =
        (Ok (mkSyncResult 0 0 0 []), w') ∧
        submitted w' = [] ∧
        PENDING_ANSWERS (storage w') = Some [] ∧
        LAST_SYNC (storage w') = Some 1000.
Proof.
  apply (drain_after_failed_read_erases_queue failing_read_env
           (with_queue [R1; R2; R3]) "read error"); reflexivity.
Defined.

(** X4. A failed write of the queue keeps every entry: when the read of the
    pending answers succeeds and the write of the remaining ones fails, the
    drain has submitted every entry, throws the storage error, and leaves the
    persistent store exactly as it was: the entries the server accepted are
    still queued (and will be submitted again), and no last-sync time is
    written. *)
Theorem drain_with_failed_write_keeps_queue env w e :
  syncInProgress w = false →
  default false (netinfo env (n_net w)) = true →
  io_error env (n_io w) = None →
  io_error env (S (n_io w)) = Some e →
  ∃ w', run (syncPendingAnswers env) w = (Throw e, w') ∧
        storage w' = storage w ∧
        submitted w' = submitted w ++ (request_of <$> queue w).
Proof.
  intros Hbusy Hnet Hread Hwrite.
  rewrite run_syncPendingAnswers_online by done. rewrite Hwrite.
  eexists. split; [reflexivity|]. simpl.
  unfold read_pending, queue. by rewrite Hread.
Qed.

Lemma drain_with_failed_write_keeps_queue_witness :
  ∃ w', run (syncPendingAnswers failing_write_env) (with_queue [R1; R2]) =
        (Throw "disk full", w') ∧
        storage w' = storage (with_queue [R1; R2]) ∧
        submitted w' = [request_of R1; request_of R2].
Proof.
  apply (drain_with_failed_write_keeps_queue failing_write_env
           (with_queue [R1; R2]) "disk full"); reflexivity.
Defined.

(** X5. Retry: of two drains run one after the other (device online, store
    answering), the second submits exactly the entries that failed in the
    first, in their original order, and nothing else; an entry the server
    accepted is never submitted again.  What the second drain leaves queued
    are the entries that failed both times. *)
Theorem second_drain_retries_failed_entries env w :
  syncInProgress w = false →
  default false (netinfo env (n_net w)) = true →
  default false (netinfo env (S (n_net w))) = true →
  no_io_error env →
  let P := queue w in
  let rs := server_responses env (length (submitted w)) P in
  let rs' := server_responses env (length (submitted w) + length P) (failed rs) in
  let w1 := (run (syncPendingAnswers env) w).2 in
  queue w1 = failed rs ∧
  run (syncPendingAnswers env) w1 =
    (Ok (drain_result rs'), (run (syncPendingAnswers env) w1).2) ∧
  submitted (run (syncPendingAnswers env) w1).2
  = submitted w ++ (request_of <$> P) ++ (request_of <$> failed rs) ∧
  queue (run (syncPendingAnswers env) w1).2 = failed rs'.
Proof.
  intros Hbusy Hnet Hnet' Hio P rs rs' w1.
  assert (Hw1 : w1 = set_syncInProgress false
            (tick_io (with_storage (set_LAST_SYNC (clock env (n_clock w)))
               (tick_clock (tick_io (with_storage (set_PENDING_ANSWERS (failed rs))
                  (after_sync_loop P w))))))).
  { unfold w1. rewrite run_syncPendingAnswers_online by done. rewrite !Hio.
    unfold read_pending. rewrite Hio. done. }
  assert (Hq1 : queue w1 = failed rs) by (by rewrite Hw1).
  assert (Hread : read_pending env w1 = failed rs).
  { unfold read_pending. rewrite Hio. exact Hq1. }
  assert (Hsub : submitted w1 = submitted w ++ (request_of <$> P)) by (by rewrite Hw1).
  assert (Hrun : run (syncPendingAnswers env) w1 =
            (Ok (drain_result rs'),
             set_syncInProgress false
               (tick_io (with_storage (set_LAST_SYNC (clock env (n_clock w1)))
                  (tick_clock (tick_io (with_storage (set_PENDING_ANSWERS (failed rs'))
                     (after_sync_loop (failed rs) w1)))))))).
  { rewrite run_syncPendingAnswers_online; [|by rewrite Hw1|by rewrite Hw1].
    rewrite !Hio, Hread, Hsub, length_app, length_fmap. done. }
  split; [done|]. rewrite Hrun. split; [done|]. simpl.
  split; [by rewrite Hsub, <- app_assoc|done].
Qed.

Lemma second_drain_retries_failed_entries_witness :
  let w1 := (run (syncPendingAnswers flaky_env) (with_queue [R1; R2; R3])).2 in
  queue w1 = [R2] ∧
  submitted (run (syncPendingAnswers flaky_env) w1).2
  = [request_of R1; request_of R2; request_of R3; request_of R2] ∧
  queue (run (syncPendingAnswers flaky_env) w1).2 = [].
Proof.
  intros w1.
  destruct (second_drain_retries_failed_entries flaky_env (with_queue [R1; R2; R3]))
    as (Hq & _ & Hs & Hq').
  - reflexivity.
  - reflexivity.
  - reflexivity.
  - intros k. reflexivity.
  - split; [exact Hq|]. split; [exact Hs|exact Hq'].
Defined.

(** ** The connectivity listener *)

Lemma run_not_awaited {A} (m : Async A) w :
  run (not_awaited m) w = (Ok tt, (run m w).2).
Proof.
  unfold not_awaited. rewrite run_try_catch, run_bind.
  destruct (run m w) as [[a|e] w']; done.
Qed.

Lemma run_networkListener env isConnected w :
  run (networkListener env isConnected) w =
  (Ok tt,
   if negb (isOnline w) && default false isConnected
   then (run (syncPendingAnswers env) (set_isOnline (default false isConnected) w)).2
   else set_isOnline (default false isConnected) w).
Proof.
  unfold networkListener.
  rewrite run_bind. simpl (run (gets _) _). rewrite after_Ok.
  rewrite run_bind. simpl (run (modify _) _). rewrite after_Ok.
  rewrite run_bind. simpl (run (gets _) _). rewrite after_Ok.
  simpl (isOnline (set_isOnline _ _)).
  destruct (negb (isOnline w) && default false isConnected);
    [by rewrite run_not_awaited|done].
Qed.

(** X6. The listener starts a drain exactly on an offline-to-online event.
    An event received while the service believes it is online, or an event
    that reports no connection, only records the reported state: no request
    is sent and nothing is written.  An event that reports a connection
    while the service believes it is offline starts [syncPendingAnswers];
    whatever that drain comes to, nothing is thrown to the listener's
    caller.  In particular, once [checkOnline] has seen the connection come
    back, the event that follows starts no drain. *)
Theorem networkListener_drains_on_reconnect env w isConnected :
  let connected := default false isConnected in
  let r := run (networkListener env isConnected) w in
  r.1 = Ok tt ∧
  (isOnline w = true ∨ connected = false → r.2 = set_isOnline connected w) ∧
  (isOnline w = false → connected = true →
   r.2 = (run (syncPendingAnswers env) (set_isOnline true w)).2) ∧
  (default false (netinfo env (n_net w)) = true →
   let w1 := (run (checkOnline env) w).2 in
   run (networkListener env (Some true)) w1 = (Ok tt, w1)).
Proof.
  intros connected r. subst r. rewrite run_networkListener. fold connected.
  split; [|split; [|split]].
  - by destruct (negb (isOnline w) && connected).
  - intros [Hon|Hoff].
    + by rewrite Hon.
    + by rewrite Hoff, andb_false_r.
  - intros Hoff Hcon. by rewrite Hoff, Hcon.
  - intros Hnet w1. subst w1.
    rewrite run_checkOnline, Hnet, run_networkListener. simpl. by destruct w.
Qed.

Lemma networkListener_drains_on_reconnect_witness :
  (run (networkListener ticking_env (Some true)) (with_queue [R1])).2
  = with_queue [R1] ∧
  submitted (run (networkListener ticking_env (Some true))
               (set_isOnline false (with_queue [R1]))).2 = [request_of R1].
Proof.
  destruct (networkListener_drains_on_reconnect ticking_env (with_queue [R1])
              (Some true)) as (_ & Hstay & _ & _).
  destruct (networkListener_drains_on_reconnect ticking_env
              (set_isOnline false (with_queue [R1])) (Some true))
    as (_ & _ & Hgo & _).
  split.
  - rewrite Hstay; [reflexivity|]. left. reflexivity.
  - rewrite Hgo; reflexivity.
Defined.

(** ** The local progress store *)

Lemma assign_score_lookup key value (scores : gmap string Z) :
  key ≠ "__proto__" ∨ is_Some (scores !! "__proto__") →
  assign_score key value scores !! key = Some value.
Proof.
  intros Hkey. unfold assign_score. case_decide as Hproto.
  - destruct Hproto as [-> Hnone]. destruct Hkey as [?|[? Hsome]]; [done|].
    by rewrite Hnone in Hsome.
  - apply lookup_insert_eq.
Qed.

Lemma assign_score_ignored key value (scores : gmap string Z) :
  key = "__proto__" → scores !! "__proto__" = None →
  assign_score key value scores = scores.
Proof. intros. unfold assign_score. by rewrite decide_True. Qed.

Lemma assign_score_lookup_ne key value (scores : gmap string Z) other :
  other ≠ key → assign_score key value scores !! other = scores !! other.
Proof.
  intros Hother. unfold assign_score. case_decide; [done|].
  by apply lookup_insert_ne.
Qed.

Lemma assign_score_lookup_eq key value (scores : gmap string Z) :
  assign_score key value scores !! key
  = if decide (key = "__proto__" ∧ scores !! "__proto__" = None) then None
    else Some value.
Proof.
  unfold assign_score. case_decide as Hproto.
  - by destruct Hproto as [-> ->].
  - apply lookup_insert_eq.
Qed.

Lemma assign_score_lookup_other k1 v1 k2 v2 (scores : gmap string Z) :
  k1 ≠ k2 →
  assign_score k2 v2 (assign_score k1 v1 scores) !! k1
  = assign_score k1 v1 (assign_score k2 v2 scores) !! k1.
Proof.
  intros Hne. rewrite assign_score_lookup_ne by done.
  rewrite !assign_score_lookup_eq.
  destruct (decide (k1 = "__proto__")) as [->|Hk1].
  - by rewrite (assign_score_lookup_ne k2 v2 scores "__proto__").
  - rewrite !decide_False; [done|by intros [? _]..].
Qed.

Lemma assign_score_comm k1 v1 k2 v2 (scores : gmap string Z) :
  k1 ≠ k2 →
  assign_score k2 v2 (assign_score k1 v1 scores)
  = assign_score k1 v1 (assign_score k2 v2 scores).
Proof.
  intros Hne. apply map_eq. intros k.
  destruct (decide (k = k1)) as [->|Hk1]; [|destruct (decide (k = k2)) as [->|Hk2]].
  - by apply assign_score_lookup_other.
  - symmetry. by apply assign_score_lookup_other.
  - by rewrite !assign_score_lookup_ne.
Qed.

Lemma assign_score_twice key v1 v2 (scores : gmap string Z) :
  assign_score key v2 (assign_score key v1 scores) = assign_score key v2 scores.
Proof.
  unfold assign_score at 2.
  destruct (decide (key = "__proto__" ∧ scores !! "__proto__" = None)) as [Hyes|Hno];
    [done|].
  unfold assign_score. rewrite decide_False.
  - rewrite decide_False by done. apply insert_insert_eq.
  - intros [-> Hn]. by rewrite lookup_insert_eq in Hn.
Qed.

Section Progress.
Variable env : Env.

Lemma run_saveProgress p w :
  run (saveProgress env p) w =
  match io_error env (n_io w) with
  | Some e => (Throw e, tick_io (tick_clock w))
  | None => (Ok tt, tick_io (with_storage
                               (set_USER_PROGRESS (stamp_progress p (clock env (n_clock w))))
                               (tick_clock w)))
  end.
Proof.
  unfold saveProgress. rewrite run_bind, run_now, after_Ok, run_setItem.
  simpl n_io. destruct (io_error env (n_io w)); done.
Qed.

Lemma run_updateLocalMastery topic_slug mastery w :
  run (updateLocalMastery env topic_slug mastery) w =
  match read_progress env w with
  | Some p => run (saveProgress env (with_mastery topic_slug mastery p)) (tick_io w)
  | None => (Ok tt, tick_io w)
  end.
Proof.
  unfold updateLocalMastery. rewrite run_bind, run_getProgress, after_Ok.
  destruct (read_progress env w); done.
Qed.

End Progress.

(** X7. Round trip of the progress store: a snapshot written by
    [saveProgress] is what [getProgress] reads back next, except for its
    last-updated time, which is replaced by the time of the write (the value
    the caller supplied is ignored); the other storage keys are left alone. *)
Theorem saveProgress_getProgress_roundtrip env w p :
  io_error env (n_io w) = None →
  io_error env (S (n_io w)) = None →
  let w1 := (run (saveProgress env p) w).2 in
  (run (getProgress env) w1).1
  = Ok (Some (stamp_progress p (clock env (n_clock w)))) ∧
  CACHED_QUESTIONS (storage w1) = CACHED_QUESTIONS (storage w) ∧
  PENDING_ANSWERS (storage w1) = PENDING_ANSWERS (storage w) ∧
  LAST_SYNC (storage w1) = LAST_SYNC (storage w) ∧
  OFFLINE_STATS (storage w1) = OFFLINE_STATS (storage w).
Proof.
  intros Hwrite Hread w1. subst w1.
  rewrite run_saveProgress, Hwrite, run_getProgress.
  unfold read_progress. simpl. by rewrite Hread.
Qed.

(** X8. [updateLocalMastery] on a stored snapshot touches the score of the
    given category and nothing else: read back, the snapshot maps every
    other category to what it mapped to before, keeps the user, xp, level
    and streak, and carries the time of the write as last-updated.  The
    given category is mapped to the new score, with one exception: for the
    category [__proto__], when the stored scores have no such key, the
    assignment is ignored and the scores are written back as they were. *)
Theorem updateLocalMastery_sets_one_score env w p topic_slug mastery :
  no_io_error env →
  USER_PROGRESS (storage w) = Some p →
  ∃ p', (run (do updateLocalMastery env topic_slug mastery in getProgress env) w).1
        = Ok (Some p') ∧
        (topic_slug ≠ "__proto__" ∨ is_Some (topic_mastery p !! "__proto__") →
         topic_mastery p' !! topic_slug = Some mastery) ∧
        (topic_slug = "__proto__" → topic_mastery p !! "__proto__" = None →
         topic_mastery p' = topic_mastery p) ∧
        (∀ other, other ≠ topic_slug →
                  topic_mastery p' !! other = topic_mastery p !! other) ∧
        user_id p' = user_id p ∧ total_xp p' = total_xp p ∧
        level p' = level p ∧ streak p' = streak p ∧
        last_updated p' = clock env (n_clock w).
Proof.
  intros Hio Hp.
  rewrite run_bind, run_updateLocalMastery.
  unfold read_progress. rewrite Hio, Hp.
  rewrite run_saveProgress, Hio, after_Ok, run_getProgress.
  unfold read_progress. rewrite Hio. simpl.
  eexists. split; [reflexivity|]. simpl.
  split; [apply assign_score_lookup|].
  split; [apply assign_score_ignored|].
  split; [|done]. intros other Hother. by apply assign_score_lookup_ne.
Qed.

Lemma saveProgress_getProgress_roundtrip_witness :
  (run (getProgress ticking_env)
     (run (saveProgress ticking_env sample_progress) initial_world).2).1
  = Ok (Some (stamp_progress sample_progress 1000)).
Proof.
  apply (saveProgress_getProgress_roundtrip ticking_env initial_world sample_progress);
    reflexivity.
Defined.

Lemma updateLocalMastery_sets_one_score_witness :
  (∃ p', (run (do updateLocalMastery ticking_env "fractions" 70 in
               getProgress ticking_env) (with_progress sample_progress)).1
         = Ok (Some p') ∧
         topic_mastery p' !! "fractions" = Some 70 ∧
         topic_mastery p' !! "arithmetic" = Some 40) ∧
  (∃ p', (run (do updateLocalMastery ticking_env "__proto__" 70 in
               getProgress ticking_env) (with_progress sample_progress)).1
         = Ok (Some p') ∧
         topic_mastery p' = topic_mastery sample_progress).
Proof.
  split.
  - destruct (updateLocalMastery_sets_one_score ticking_env
                (with_progress sample_progress) sample_progress "fractions" 70)
      as (p' & Hrun & Hnew & _ & Hold & _).
    + intros k. reflexivity.
    + reflexivity.
    + exists p'. split; [exact Hrun|]. split.
      * apply Hnew. left. discriminate.
      * rewrite Hold; [reflexivity|discriminate].
  - destruct (updateLocalMastery_sets_one_score ticking_env
                (with_progress sample_progress) sample_progress "__proto__" 70)
      as (p' & Hrun & _ & Hignored & _).
    + intros k. reflexivity.
    + reflexivity.
    + exists p'. split; [exact Hrun|]. apply Hignored; reflexivity.
Defined.

(** X9. Two [updateLocalMastery] calls in a row on a stored snapshot: for
    two different categories the order of the calls does not matter for the
    stored scores, and for one category the later call wins, the scores
    being those the later call alone would have left.  Both categories end
    up with the score given for them, except that a call for the category
    [__proto__] on scores without such a key changes no score. *)
Theorem updateLocalMastery_twice env w p t1 m1 t2 m2 :
  no_io_error env →
  USER_PROGRESS (storage w) = Some p →
  let scores a x b y :=
    topic_mastery <$>
      USER_PROGRESS (storage (run (do updateLocalMastery env a x in
                                   updateLocalMastery env b y) w).2) in
  let scores_once b y :=
    topic_mastery <$>
      USER_PROGRESS (storage (run (updateLocalMastery env b y) w).2) in
  (t1 ≠ t2 → scores t1 m1 t2 m2 = scores t2 m2 t1 m1) ∧
  (t1 = t2 → scores t1 m1 t2 m2 = scores_once t2 m2) ∧
  (∃ s, scores t1 m1 t2 m2 = Some s ∧
        (t2 ≠ "__proto__" → s !! t2 = Some m2) ∧
        (t1 ≠ "__proto__" → t1 ≠ t2 → s !! t1 = Some m1) ∧
        (∀ other, other ≠ t1 → other ≠ t2 → s !! other = topic_mastery p !! other)) ∧
  (t1 = "__proto__" → topic_mastery p !! "__proto__" = None →
   scores t1 m1 t2 m2 = scores_once t2 m2).
Proof.
  intros Hio Hp scores scores_once.
  assert (Hscores : ∀ a x b y,
            scores a x b y
            = Some (assign_score b y (assign_score a x (topic_mastery p)))).
  { intros a x b y. unfold scores.
    rewrite run_bind, run_updateLocalMastery.
    unfold read_progress. rewrite Hio, Hp.
    rewrite run_saveProgress, Hio, after_Ok, run_updateLocalMastery.
    unfold read_progress. rewrite Hio. simpl.
    by rewrite Hio. }
  assert (Honce : ∀ b y, scores_once b y = Some (assign_score b y (topic_mastery p))).
  { intros b y. unfold scores_once. rewrite run_updateLocalMastery.
    unfold read_progress. rewrite Hio, Hp, run_saveProgress, Hio. done. }
  split; [|split; [|split]].
  - intros Hne. rewrite !Hscores. f_equal. by apply assign_score_comm.
  - intros ->. rewrite Hscores, Honce. f_equal. apply assign_score_twice.
  - eexists. split; [apply Hscores|]. split; [|split].
    + intros Ht2. apply assign_score_lookup. by left.
    + intros Ht1 Hne. rewrite assign_score_lookup_ne by done.
      apply assign_score_lookup. by left.
    + intros other H1 H2. by rewrite !assign_score_lookup_ne.
  - intros -> Hnone. rewrite Hscores, Honce. f_equal. f_equal.
    by apply assign_score_ignored.
Qed.

Lemma updateLocalMastery_twice_witness :
  let scores a x b y :=
    topic_mastery <$>
      USER_PROGRESS (storage (run (do updateLocalMastery ticking_env a x in
                                   updateLocalMastery ticking_env b y)
                                (with_progress sample_progress)).2) in
  scores "fractions" 70 "arithmetic" 55 = scores "arithmetic" 55 "fractions" 70.
Proof.
  intros scores.
  destruct (updateLocalMastery_twice ticking_env (with_progress sample_progress)
              sample_progress "fractions" 70 "arithmetic" 55) as [Hcomm _].
  - intros k. reflexivity.
  - reflexivity.
  - apply Hcomm. discriminate.
Defined.

(** ** Enqueueing and the offline statistics *)

Section Stats.
Variable env : Env.

(** [updateOfflineStats] touches the statistics key only. *)
Lemma updateOfflineStats_frame b w :
  let w' := (run (updateOfflineStats env b) w).2 in
  CACHED_QUESTIONS (storage w') = CACHED_QUESTIONS (storage w) ∧
  PENDING_ANSWERS (storage w') = PENDING_ANSWERS (storage w) ∧
  USER_PROGRESS (storage w') = USER_PROGRESS (storage w) ∧
  LAST_SYNC (storage w') = LAST_SYNC (storage w) ∧
  submitted w' = submitted w ∧ fetched w' = fetched w.
Proof.
  unfold updateOfflineStats. rewrite run_try_catch, run_bind, run_getItem.
  destruct (io_error env (n_io w)) as [e|]; [done|]. rewrite after_Ok.
  destruct b.
  - rewrite run_bind, run_bind, run_now, after_Ok, run_ret, after_Ok, run_setItem.
    simpl n_io. destruct (io_error env (S (n_io w))); done.
  - rewrite run_bind, run_ret, after_Ok, run_setItem.
    simpl n_io. destruct (io_error env (S (n_io w))); done.
Qed.

(** The number of answers recorded by the statistics key. *)
Lemma answered_after_queueAnswer question_id user_answer response_time_ms topic_slug w :
  no_io_error env →
  let w' := (run (queueAnswer env question_id user_answer response_time_ms
                    topic_slug) w).2 in
  OFFLINE_STATS (storage w')
  = Some (mkOfflineStats
            (questions_answered_offline
               (default (mkOfflineStats 0 None) (OFFLINE_STATS (storage w))) + 1)
            (Some (clock env (S (S (n_clock w)))))) ∧
  CACHED_QUESTIONS (storage w') = CACHED_QUESTIONS (storage w) ∧
  LAST_SYNC (storage w') = LAST_SYNC (storage w).
Proof.
  intros Hio w'. subst w'.
  rewrite run_queueAnswer, Hio, run_updateOfflineStats_true by apply Hio.
  done.
Qed.

Lemma run_promise_all2 {A B} (a : Async A) (b : Async B) w :
  run (promise_all2 a b) w =
  (match (run a w).1, (run b (run a w).2).1 with
   | Ok x, Ok y => Ok (x, y)
   | Throw e, _ => Throw e
   | Ok _, Throw e => Throw e
   end, (run b (run a w).2).2).
Proof.
  revert w. induction a as [[x|e]|k IH u|k IH u]; intros w; simpl; auto.
  - rewrite run_bind. simpl. by destruct (run b w) as [[y|e] w'].
  - unfold then_throw. rewrite run_try_catch, run_bind. simpl.
    by destruct (run b w) as [[y|e'] w'].
Qed.

Lemma run_removeItem (clear : Storage → Storage) w :
  run (removeItem env clear) w =
  match io_error env (n_io w) with
  | Some e => (Throw e, tick_io w)
  | None => (Ok tt, tick_io (with_storage clear w))
  end.
Proof. simpl. destruct (io_error env (n_io w)); done. Qed.

Lemma run_getOfflineStats w :
  let w2 := tick_io (tick_io w) in
  let w3 := tick_io w2 in
  run (getOfflineStats env) w =
  (Ok (match io_error env (n_io w), io_error env (S (n_io w)) with
       | None, None =>
           mkOfflineStatsReport
             (default 0 (questions_answered_offline <$> OFFLINE_STATS (storage w)))
             (Z.of_nat (length (read_pending env w2)))
             (Z.of_nat (length (read_cached env None w3)))
             (LAST_SYNC (storage w))
       | _, _ => mkOfflineStatsReport 0 0 0 None
       end),
   after_read_cached env w3).
Proof.
  intros w2 w3. subst w3 w2. unfold getOfflineStats, promise_all4.
  rewrite run_try_catch, run_bind, !run_promise_all2.
  rewrite !run_getItem, run_getPendingAnswers, run_getCachedQuestions.
  destruct (io_error env (n_io w)) as [e|] eqn:H0; simpl.
  - destruct (io_error env (S (n_io w))); done.
  - destruct (io_error env (S (n_io w))) as [e|] eqn:H1; simpl; [done|].
    unfold or_number. destruct (OFFLINE_STATS (storage w)) as [stats|]; simpl.
    + case_decide as Hz; [by rewrite Hz|done].
    + done.
Qed.

End Stats.

(** X10. An answer is queued whatever happens to the statistics: when the
    read and the write of the pending answers succeed, [queueAnswer]
    completes without throwing and the persisted queue is the old one with
    the new entry appended, whatever the store does to the statistics update
    that follows. *)
Theorem queueAnswer_survives_stats_failure env w question_id user_answer
    response_time_ms topic_slug :
  io_error env (n_io w) = None →
  io_error env (S (n_io w)) = None →
  let r := run (queueAnswer env question_id user_answer response_time_ms topic_slug) w in
  r.1 = Ok tt ∧
  queue r.2 = queue w ++
              [mkPendingAnswer (pending_id (clock env (n_clock w))) question_id
                 user_answer response_time_ms (clock env (S (n_clock w))) topic_slug].
Proof.
  intros Hread Hwrite r. subst r. rewrite run_queueAnswer, Hwrite.
  split; [apply run_updateOfflineStats_Ok|].
  match goal with |- context [run (updateOfflineStats env true) ?w0] =>
    destruct (updateOfflineStats_frame env true w0) as (_ & Hq & _)
  end.
  unfold queue. rewrite Hq. simpl. unfold read_pending. by rewrite Hread.
Qed.

(** A store that answers the first two calls and fails all later ones. *)
Lemma queueAnswer_survives_stats_failure_witness :
  let env := mkEnv (λ k, 1000 + Z.of_nat k) (λ _, Some true)
               (λ k, if decide (k < 2)%nat then None else Some "quota exceeded")
               (λ k _, inr "question") (λ _ _, inr (mkAnswerResult true None)) in
  let r := run (queueAnswer env "q4" "9" 800 "arithmetic") (with_queue [R1]) in
  r.1 = Ok tt ∧
  queue r.2 = [R1; mkPendingAnswer "pending_1000" "q4" "9" 800 1001 "arithmetic"] ∧
  OFFLINE_STATS (storage r.2) = None.
Proof.
  intros env r.
  destruct (queueAnswer_survives_stats_failure env (with_queue [R1]) "q4" "9" 800
              "arithmetic") as [Hok Hq].
  - reflexivity.
  - reflexivity.
  - split; [exact Hok|]. split; [exact Hq|]. reflexivity.
Defined.

(** X11. A failed read overwrites the queue: when the store fails the read
    of the pending answers and accepts the write that follows,
    [queueAnswer] completes without throwing and the persisted queue holds
    the new entry alone: the answers queued before are gone. *)
Theorem queueAnswer_after_failed_read_overwrites_queue env w e question_id
    user_answer response_time_ms topic_slug :
  io_error env (n_io w) = Some e →
  io_error env (S (n_io w)) = None →
  let r := run (queueAnswer env question_id user_answer response_time_ms topic_slug) w in
  r.1 = Ok tt ∧
  queue r.2 = [mkPendingAnswer (pending_id (clock env (n_clock w))) question_id
                 user_answer response_time_ms (clock env (S (n_clock w))) topic_slug].
Proof.
  intros Hread Hwrite r. subst r. rewrite run_queueAnswer, Hwrite.
  split; [apply run_updateOfflineStats_Ok|].
  match goal with |- context [run (updateOfflineStats env true) ?w0] =>
    destruct (updateOfflineStats_frame env true w0) as (_ & Hq & _)
  end.
  unfold queue. rewrite Hq. simpl. unfold read_pending. by rewrite Hread.
Qed.

Lemma queueAnswer_after_failed_read_overwrites_queue_witness :
  let r := run (queueAnswer failing_read_env "q4" "9" 800 "arithmetic")
             (with_queue [R1; R2; R3]) in
  r.1 = Ok tt ∧
  queue r.2 = [mkPendingAnswer "pending_1000" "q4" "9" 800 1001 "arithmetic"].
Proof.
  apply (queueAnswer_after_failed_read_overwrites_queue failing_read_env
           (with_queue [R1; R2; R3]) "read error" "q4" "9" 800 "arithmetic");
    reflexivity.
Defined.



(** X13. Enqueued answers show up in the statistics: after any series of
    [queueAnswer] calls (the store answering), [getOfflineStats] reports as
    answered offline the number recorded before plus the number of calls,
    and as pending the number queued before plus the number of calls. *)
Theorem getOfflineStats_counts_enqueued env calls w :
  no_io_error env →
  ∃ report,
    (run (getOfflineStats env) (run_enqueues env calls w)).1 = Ok report ∧
    os_questions_answered_offline report
    = default 0 (questions_answered_offline <$> OFFLINE_STATS (storage w))
      + Z.of_nat (length calls) ∧
    os_pending_sync report = Z.of_nat (length (queue w) + length calls) ∧
    os_last_sync report = LAST_SYNC (storage w).
Proof.
  intros Hio. rewrite run_getOfflineStats, !Hio. simpl.
  eexists. split; [reflexivity|]. simpl.
  unfold read_pending. rewrite Hio. simpl. fold (queue (run_enqueues env calls w)).
  revert w. induction calls as [|c calls IH]; intros w.
  - simpl. split; [lia|]. split; [f_equal; lia|done].
  - cbn [run_enqueues].
    destruct (answered_after_queueAnswer env (enq_question_id c) (enq_user_answer c)
                (enq_response_time_ms c) (enq_topic_slug c) w Hio) as (Hs & _ & Hl).
    destruct (queueAnswer_appends env (enq_question_id c) (enq_user_answer c)
                (enq_response_time_ms c) (enq_topic_slug c) w Hio) as [Hq _].
    set (w' := (run _ w).2) in *.
    destruct (IH w') as (IH1 & IH2 & IH3).
    rewrite IH1, IH2, IH3, Hs, Hq, Hl, length_app. simpl.
    split; [|split; [f_equal; lia|done]].
    destruct (OFFLINE_STATS (storage w)); simpl; lia.
Qed.

Lemma getOfflineStats_counts_enqueued_witness :
  ∃ report,
    (run (getOfflineStats ticking_env)
       (run_enqueues ticking_env
          [mkEnqueue "q4" "9" 800 "arithmetic"; mkEnqueue "q5" "2" 650 "fractions"]
          (with_queue [R1]))).1 = Ok report ∧
    os_questions_answered_offline report = 2 ∧ os_pending_sync report = 3.
Proof.
  destruct (getOfflineStats_counts_enqueued ticking_env
              [mkEnqueue "q4" "9" 800 "arithmetic"; mkEnqueue "q5" "2" 650 "fractions"]
              (with_queue [R1])) as (report & Hrun & Ha & Hp & _).
  - intros k. reflexivity.
  - exists report. split; [exact Hrun|]. split; [exact Ha|exact Hp].
Defined.

(** ** Clearing *)

Lemma run_clearAllData env w :
  let e0 := io_error env (n_io w) in
  let e1 := io_error env (S (n_io w)) in
  let e2 := io_error env (S (S (n_io w))) in
  let e3 := io_error env (S (S (S (n_io w)))) in
  let keep {A} (e : option string) (v : option A) : option A :=
    match e with None => None | Some _ => v end in
  run (clearAllData env) w =
  (match e0, e1, e2, e3 with
   | None, None, None, None => Ok tt
   | Some e, _, _, _ => Throw e
   | None, Some e, _, _ => Throw e
   | None, None, Some e, _ => Throw e
   | None, None, None, Some e => Throw e
   end,
   mkWorld (mkStorage (keep e0 (CACHED_QUESTIONS (storage w)))
                      (keep e1 (PENDING_ANSWERS (storage w)))
                      (keep e2 (USER_PROGRESS (storage w)))
                      (LAST_SYNC (storage w))
                      (keep e3 (OFFLINE_STATS (storage w))))
           (isOnline w) (syncInProgress w) (n_clock w) (n_net w)
           (S (S (S (S (n_io w))))) (fetched w) (submitted w)).
Proof.
  intros e0 e1 e2 e3 keep. subst e0 e1 e2 e3 keep.
  unfold clearAllData, promise_all4.
  rewrite run_bind, !run_promise_all2, !run_removeItem.
  destruct w as [[c p u l o] on busy nc nn ni f s]. simpl.
  destruct (io_error env ni); simpl;
    destruct (io_error env (S ni)); simpl;
    destruct (io_error env (S (S ni))); simpl;
    destruct (io_error env (S (S (S ni)))); simpl; done.
Qed.

(** X14. [clearAllData] removes the cached questions, the pending answers,
    the progress snapshot and the statistics, and never the last-sync time.
    The four removals are independent: each key is removed exactly when its
    own removal succeeds, a failing removal does not stop the others, and the
    call throws exactly when some removal fails.  With the store answering,
    the queue and the cache read empty afterwards and no snapshot is left. *)
Theorem clearAllData_clears_all_but_last_sync env w :
  let r := run (clearAllData env) w in
  let e0 := io_error env (n_io w) in
  let e1 := io_error env (S (n_io w)) in
  let e2 := io_error env (S (S (n_io w))) in
  let e3 := io_error env (S (S (S (n_io w)))) in
  let keep {A} (e : option string) (v : option A) : option A :=
    match e with None => None | Some _ => v end in
  CACHED_QUESTIONS (storage r.2) = keep e0 (CACHED_QUESTIONS (storage w)) ∧
  PENDING_ANSWERS (storage r.2) = keep e1 (PENDING_ANSWERS (storage w)) ∧
  USER_PROGRESS (storage r.2) = keep e2 (USER_PROGRESS (storage w)) ∧
  OFFLINE_STATS (storage r.2) = keep e3 (OFFLINE_STATS (storage w)) ∧
  LAST_SYNC (storage r.2) = LAST_SYNC (storage w) ∧
  (r.1 = Ok tt ↔ e0 = None ∧ e1 = None ∧ e2 = None ∧ e3 = None) ∧
  (no_io_error env →
   r.1 = Ok tt ∧ queue r.2 = [] ∧ cache r.2 = [] ∧
   (run (getProgress env) r.2).1 = Ok None).
Proof.
  intros r e0 e1 e2 e3 keep. subst r. rewrite run_clearAllData.
  fold e0 e1 e2 e3.
  repeat (split; [done|]). split; [split|].
  - simpl. intros Hok. destruct e0; [done|]. destruct e1; [done|].
    destruct e2; [done|]. by destruct e3.
  - by intros (-> & -> & -> & ->).
  - intros Hio. rewrite run_getProgress. unfold queue, cache, read_progress.
    subst e0 e1 e2 e3. simpl. by rewrite !Hio.
Qed.

Lemma clearAllData_clears_all_but_last_sync_witness :
  let w := with_storage (set_LAST_SYNC 777) (with_queue [R1; R2]) in
  (run (clearAllData ticking_env) w).1 = Ok tt ∧
  storage (run (clearAllData ticking_env) w).2
  = mkStorage None None None (Some 777) None.
Proof.
  intros w.
  destruct (clearAllData_clears_all_but_last_sync ticking_env w)
    as (_ & _ & _ & _ & _ & _ & Hok).
  destruct Hok as (Hok & _).
  - intros k. reflexivity.
  - split; [exact Hok|reflexivity].
Defined.

(** ** More on the question cache *)

Lemma filter_complement_length {A} (P : A → Prop) `{∀ x, Decision (P x)} (l : list A) :
  (length (filter P l) + length (filter (λ x, ¬ P x) l) = length l)%nat.
Proof.
  induction l as [|x l IH]; [done|].
  destruct (decide (P x)).
  - rewrite filter_cons_True, (filter_cons_False (λ x, ¬ P x)) by tauto. simpl. lia.
  - rewrite filter_cons_False, (filter_cons_True (λ x, ¬ P x)) by tauto. simpl. lia.
Qed.

Lemma filter_nothing {A} (P : A → Prop) `{∀ x, Decision (P x)} (l : list A) :
  Forall (λ x, ¬ P x) l → filter P l = [].
Proof.
  induction 1 as [|x l HP _ IH]; [done|].
  by rewrite filter_cons_False.
Qed.

(** Removing the items that carry the identifier of the first item of a list
    without duplicate identifiers removes that item only. *)
Lemma filter_other_id_head first l :
  NoDup (cq_id <$> (first :: l)) →
  filter (other_id (cq_id first)) (first :: l) = l.
Proof.
  intros Hnd. apply NoDup_cons in Hnd as [Hnotin _].
  rewrite filter_cons_False by (unfold other_id; tauto).
  apply filter_all. apply Forall_forall. intros q Hq Heq.
  apply Hnotin. rewrite <- Heq. by apply list_elem_of_fmap_2.
Qed.


(** X15. The empty category is no category: called with [''],
    [getCachedQuestions] and [getCacheCount] behave as when called without a
    category, and [getOfflineQuestion] hands out the earliest unexpired item
    whatever its category. *)
Theorem empty_category_matches_every_item env w :
  run (getCachedQuestions env (Some "")) w = run (getCachedQuestions env None) w ∧
  run (getCacheCount env (Some "")) w = run (getCacheCount env None) w ∧
  (no_io_error env →
   (run (getOfflineQuestion env "") w).1
   = Ok (cq_question <$> head (filter (unexpired (clock env (n_clock w))) (cache w)))).
Proof.
  rewrite !run_getCachedQuestions, !run_getCacheCount.
  assert (Hsame : read_cached env (Some "") w = read_cached env None w) by done.
  rewrite Hsame. split; [done|]. split; [done|].
  intros Hio. rewrite run_getOfflineQuestion, run_getOfflineQuestion_first.
  rewrite Hsame, Hio. unfold read_cached, cache. rewrite Hio.
  destruct (CACHED_QUESTIONS (storage w)) as [stored|]; simpl; [|done].
  by destruct (filter _ stored).
Qed.

Lemma empty_category_matches_every_item_witness :
  (run (getOfflineQuestion ticking_env "")
     (with_cache [mkCachedQuestion "cached_7_0" "fractions" 2 "1/2+1/3" 7 (7 + TTL)])).1
  = Ok (Some "1/2+1/3").
Proof.
  destruct (empty_category_matches_every_item ticking_env
              (with_cache [mkCachedQuestion "cached_7_0" "fractions" 2 "1/2+1/3" 7
                             (7 + TTL)])) as (_ & _ & Htake).
  rewrite Htake; [reflexivity|]. intros k. reflexivity.
Defined.



(** X17. What [clearExpiredCache] returns is not the number of items it
    removes from the store: with a stored cache and the store answering, it
    persists the stored items that are unexpired at both of its clock
    readings, but it returns only the number of items that expire between
    the first reading (taken when the cache is read) and the second (taken
    for the sweep).  When the two readings show the same instant it returns
    0, however many expired items it has just dropped. *)
Theorem clearExpiredCache_counts_only_late_expiries env w stored :
  no_io_error env →
  CACHED_QUESTIONS (storage w) = Some stored →
  let t1 := clock env (n_clock w) in
  let t2 := clock env (S (n_clock w)) in
  let r := run (clearExpiredCache env) w in
  cache r.2 = filter (unexpired t2) (filter (unexpired t1) stored) ∧
  r.1 = Ok (Z.of_nat (length (filter (λ q, ¬ unexpired t2 q)
                                (filter (unexpired t1) stored)))) ∧
  (t1 = t2 → r.1 = Ok 0 ∧ cache r.2 = filter (unexpired t1) stored).
Proof.
  intros Hio Hs t1 t2 r. subst r. rewrite run_clearExpiredCache. rewrite Hio.
  assert (Hread : read_cached env None w = filter (unexpired t1) stored)
    by (unfold read_cached; by rewrite Hio, Hs).
  assert (Hafter : after_read_cached env w = tick_clock (tick_io w))
    by (unfold after_read_cached; by rewrite Hio, Hs).
  rewrite Hread, Hafter. simpl n_clock. fold t2.
  assert (Hcount : Z.of_nat (length (filter (unexpired t1) stored))
                   - Z.of_nat (length (filter (unexpired t2) (filter (unexpired t1) stored)))
                   = Z.of_nat (length (filter (λ q, ¬ unexpired t2 q)
                                         (filter (unexpired t1) stored)))).
  { pose proof (filter_complement_length (unexpired t2)
                  (filter (unexpired t1) stored)). lia. }
  split; [done|]. split; [simpl; by rewrite Hcount|].
  intros Heq. simpl. rewrite Hcount, <- Heq.
  rewrite (filter_all (unexpired t1) (filter (unexpired t1) stored))
    by apply Forall_filter_same.
  rewrite (filter_nothing (λ q, ¬ unexpired t1 q)); [done|].
  eapply Forall_impl; [apply (Forall_filter_same (unexpired t1))|]. tauto.
Qed.

Lemma clearExpiredCache_counts_only_late_expiries_witness :
  let r := run (clearExpiredCache (steady_env (TTL + 5))) (with_cache sample_cache) in
  r.1 = Ok 0 ∧
  cache r.2 = [mkCachedQuestion "cached_3600000_0" "fractions" 2 "1/2+1/3" 3600000
                 (3600000 + TTL)].
Proof.
  intros r.
  destruct (clearExpiredCache_counts_only_late_expiries (steady_env (TTL + 5))
              (with_cache sample_cache) sample_cache) as (_ & _ & Hsame).
  - intros k. reflexivity.
  - reflexivity.
  - destruct Hsame as [Hzero Hcache]; [reflexivity|].
    split; [exact Hzero|]. unfold r. rewrite Hcache. reflexivity.
Defined.

(** ** Filling, then taking *)

Section RoundTrip.
Variable env : Env.
Hypothesis Hio : no_io_error env.

Lemma sweep_from_all clk l : ∀ k,
  (∀ j, (k ≤ j < k + length l)%nat → Forall (unexpired (clk j)) l) →
  sweep_from clk k l = l.
Proof.
  induction l as [|q l IH]; intros k Hall; [done|]. simpl.
  assert (Hq : unexpired (clk k) q).
  { specialize (Hall k). simpl in Hall.
    assert (Hk : Forall (unexpired (clk k)) (q :: l)) by (apply Hall; lia).
    by apply Forall_cons in Hk as [? _]. }
  rewrite decide_True by done. f_equal. apply IH.
  intros j Hj. specialize (Hall j). simpl in Hall.
  assert (Hk : Forall (unexpired (clk j)) (q :: l)) by (apply Hall; lia).
  by apply Forall_cons in Hk as [_ ?].
Qed.

Lemma fetch_batch_length topic_slug difficulty_tier t_now expires n :
  ∀ i kf kc,
  (length (fetch_batch env topic_slug difficulty_tier t_now expires n i kf kc) ≤ n)%nat.
Proof.
  induction n as [|n IH]; intros i kf kc; simpl; [lia|].
  destruct (generate_reply env kf _); simpl.
  - specialize (IH (S i) (S kf) kc). lia.
  - specialize (IH (S i) (S kf) (S kc)). lia.
Qed.

(** Within one batch the identifiers differ by their index. *)
Lemma fetch_batch_ids_by_index topic_slug difficulty_tier t_now expires n :
  ∀ i kf kc,
  let batch := fetch_batch env topic_slug difficulty_tier t_now expires n i kf kc in
  Forall (λ id, ∃ t j, (i ≤ j)%nat ∧ id = cached_id t j) (cq_id <$> batch) ∧
  NoDup (cq_id <$> batch).
Proof.
  induction n as [|n IH]; intros i kf kc; simpl; [split; constructor|].
  destruct (IH (S i) (S kf) kc) as [IHa IHb].
  destruct (IH (S i) (S kf) (S kc)) as [IHc IHd].
  destruct (generate_reply env kf _) as [error|question]; simpl.
  - split; [|done]. eapply Forall_impl; [exact IHa|].
    intros id (t & j & Hj & ->). exists t, j. split; [lia|done].
  - split.
    + constructor; [by exists (clock env kc), i|].
      eapply Forall_impl; [exact IHc|].
      intros id (t & j & Hj & ->). exists t, j. split; [lia|done].
    + apply NoDup_cons. split; [|done]. intros Hin.
      rewrite Forall_forall in IHc. destruct (IHc _ Hin) as (t & j & Hj & Heq).
      apply cached_id_inj in Heq as [_ Heq]. lia.
Qed.

(** A take on a cache whose first item is of the category, the identifiers
    being distinct and nothing expiring during the call. *)
Lemma run_take_head topic_slug first l w :
  topic_slug ≠ "" →
  cache w = first :: l →
  has_topic topic_slug first →
  NoDup (cq_id <$> first :: l) →
  Forall (unexpired (clock env (n_clock w))) (first :: l) →
  Forall (unexpired (clock env (S (n_clock w)))) (first :: l) →
  let r := run (getOfflineQuestion_first env topic_slug) w in
  r.1 = Ok (Some first) ∧ cache r.2 = l ∧ n_clock r.2 = S (S (n_clock w)).
Proof.
  intros Hne Hcache Htopic Hnd Ht Ht' r. subst r.
  assert (Hs : CACHED_QUESTIONS (storage w) = Some (first :: l)).
  { unfold cache in Hcache.
    destruct (CACHED_QUESTIONS (storage w)); simpl in Hcache; [by rewrite Hcache|done]. }
  assert (Hafter : after_read_cached env w = tick_clock (tick_io w))
    by (unfold after_read_cached; by rewrite Hio, Hs).
  rewrite run_getOfflineQuestion_first, Hafter, Hio.
  assert (Hread : read_cached env (Some topic_slug) w
                  = first :: filter (has_topic topic_slug) l).
  { unfold read_cached, truthy_string. rewrite Hio, Hs.
    destruct (decide (topic_slug = "")); [done|]. simpl.
    rewrite (filter_all (unexpired _)) by done.
    by rewrite filter_cons_True. }
  assert (Hall : read_cached env None (tick_clock (tick_io w)) = first :: l).
  { unfold read_cached. simpl. rewrite Hio, Hs. simpl. by apply filter_all. }
  assert (Hafter' : after_read_cached env (tick_clock (tick_io w))
                    = tick_clock (tick_io (tick_clock (tick_io w))))
    by (unfold after_read_cached; simpl; by rewrite Hio, Hs).
  rewrite Hread, Hall, Hafter'. simpl.
  split; [done|]. split; [|done].
  unfold cache. simpl. by apply filter_other_id_head.
Qed.

Lemma run_take_empty topic_slug w :
  cache w = [] →
  let r := run (getOfflineQuestion_first env topic_slug) w in
  r.1 = Ok None ∧ cache r.2 = [] ∧ (n_clock r.2 ≤ S (n_clock w))%nat.
Proof.
  intros Hcache r. subst r. rewrite run_getOfflineQuestion_first.
  assert (Hread : read_cached env (Some topic_slug) w = []).
  { apply sublist_nil_r. rewrite <- Hcache. apply read_cached_sublist. }
  rewrite Hread. simpl. split; [done|]. split.
  - unfold cache. by rewrite storage_after_read_cached.
  - apply n_clock_after_read_cached.
Qed.

(** Repeated takes empty a cache of one category from the front. *)
Lemma takes_return_cache_in_order topic_slug m :
  topic_slug ≠ "" →
  ∀ l w,
    cache w = l →
    Forall (has_topic topic_slug) l →
    NoDup (cq_id <$> l) →
    (∀ k, (n_clock w ≤ k < n_clock w + 2 * m)%nat → Forall (unexpired (clock env k)) l) →
    (run_cache_ops env (replicate m (Take topic_slug)) w).1 = take m l.
Proof.
  intros Hne. induction m as [|m IH]; intros l w Hcache Htopic Hnd Hfresh.
  - simpl. by rewrite take_0.
  - cbn [replicate run_cache_ops]. destruct l as [|first l].
    + destruct (run_take_empty topic_slug w Hcache) as (Hr & Hc & Hn).
      rewrite Hr. cbn [fst].
      rewrite (IH [] _ Hc); [by rewrite !take_nil|constructor|constructor|].
      intros k _. constructor.
    + apply Forall_cons in Htopic as [Hfirst Htopic].
      destruct (run_take_head topic_slug first l w Hne Hcache Hfirst Hnd)
        as (Hr & Hc & Hn).
      { apply Hfresh. lia. }
      { apply Hfresh. lia. }
      rewrite Hr. cbn [fst firstn take]. f_equal. apply (IH l _ Hc); [done| |].
      * by apply NoDup_cons in Hnd as [_ ?].
      * intros k Hk. rewrite Hn in Hk.
        assert (Hall : Forall (unexpired (clock env k)) (first :: l))
          by (apply Hfresh; lia).
        by apply Forall_cons in Hall as [_ ?].
Qed.

End RoundTrip.

(** X18. Round trip of the cache: a fill on an empty cache followed by takes
    of the same (non-empty) category hands out the fetched questions in the
    order in which they were fetched, each once, and then nothing more,
    provided the device is online at the fill, the store answers, and no
    clock reading taken on the way reaches the expiry time (the start of the
    fill plus 24 hours). *)
Theorem fill_then_takes_return_fetched_in_order env w topic_slug count
    difficulty_tier m :
  no_io_error env → topic_slug ≠ "" →
  default false (netinfo env (n_net w)) = true →
  cache w = [] →
  let n := Z.to_nat (default 10 count) in
  (∀ k, (n_clock w ≤ k < n_clock w + 2 * (n + m) + 2)%nat →
        clock env k < clock env (n_clock w) + TTL) →
  cq_question <$>
    (run_cache_ops env (Fill topic_slug count difficulty_tier
                        :: replicate m (Take topic_slug)) w).1
  = take m (successful_fetches env
              (mkGenerateQuestionParams topic_slug difficulty_tier true)
              (length (fetched w)) n).
Proof.
  intros Hio Hne Hnet Hcache n Hfresh. cbn [run_cache_ops].
  set (t_now := clock env (n_clock w)) in *.
  set (cached := fetch_batch env topic_slug difficulty_tier t_now (t_now + TTL)
                   n 0 (length (fetched w)) (S (n_clock w))).
  assert (Hfields : Forall (λ q, cq_topic_slug q = topic_slug ∧ cq_cached_at q = t_now
                                 ∧ cq_expires_at q = t_now + TTL) cached)
    by apply fetch_batch_fields.
  assert (Hlen : (length cached ≤ n)%nat) by apply fetch_batch_length.
  assert (Hunexp : ∀ k, (n_clock w ≤ k < n_clock w + 2 * (n + m) + 2)%nat →
                        Forall (unexpired (clock env k)) cached).
  { intros k Hk. eapply Forall_impl; [exact Hfields|].
    intros q (_ & _ & He). unfold unexpired. rewrite He. by apply Hfresh. }
  assert (Hfill : cache (run (cacheQuestions env topic_slug count difficulty_tier) w).2
                  = cached ∧
                  (n_clock w ≤ n_clock (run (cacheQuestions env topic_slug count
                                               difficulty_tier) w).2
                   ≤ n_clock w + 2 * n + 2)%nat).
  { rewrite run_cacheQuestions_online by done. rewrite Hio.
    fold n t_now cached.
    set (w1 := mkWorld _ _ _ _ _ _ _ _).
    assert (Hexisting : read_cached env None w1 = []).
    { apply sublist_nil_r. rewrite <- Hcache. apply (read_cached_sublist env None w1). }
    pose proof (n_clock_after_read_cached env w1) as Hc. simpl in Hc.
    rewrite Hexisting. simpl. split; [|lia].
    unfold cache. simpl. apply sweep_from_all.
    intros j Hj. apply Hunexp. lia. }
  destruct Hfill as [Hfill Hclock].
  set (w' := (run (cacheQuestions env topic_slug count difficulty_tier) w).2) in *.
  rewrite (takes_return_cache_in_order env Hio topic_slug m Hne cached w' Hfill).
  - rewrite fmap_take. f_equal. apply fetch_batch_payloads.
  - eapply Forall_impl; [exact Hfields|]. by intros q (? & _).
  - apply fetch_batch_ids_by_index.
  - intros k Hk. apply Hunexp. lia.
Qed.

Lemma fill_then_takes_return_fetched_in_order_witness :
  cq_question <$>
    (run_cache_ops flaky_env
       [Fill "arithmetic" (Some 3) None; Take "arithmetic"; Take "arithmetic";
        Take "arithmetic"] initial_world).1
  = ["question 0"; "question 2"].
Proof.
  apply (fill_then_takes_return_fetched_in_order flaky_env initial_world "arithmetic"
           (Some 3) None 3).
  - intros k. reflexivity.
  - discriminate.
  - reflexivity.
  - reflexivity.
  - intros k Hk. unfold TTL. simpl in *. lia.
Defined.

(** ** Calls that overlap *)

Lemma advance_parked {A} (m : Async A) w : parked m → advance m w = (w, m).
Proof. by destruct m. Qed.

Lemma parked_drain_from_queue_read env pending :
  parked (drain_from_queue_read env pending).
Proof. destruct pending; exact I. Qed.

Lemma drain_until_queue_read_eq env w :
  syncInProgress w = false →
  default false (netinfo env (n_net w)) = true →
  io_error env (n_io w) = None →
  drain_until_queue_read env w
  = (tick_io (set_syncInProgress true (set_isOnline true (tick_net w))),
     drain_from_queue_read env (queue w)).
Proof.
  intros Hbusy Hnet Hio. unfold drain_until_queue_read.
  assert (Hcalled : advance (syncPendingAnswers env) w
                    = (w, (advance (syncPendingAnswers env) w).2)).
  { simpl. by rewrite Hbusy. }
  rewrite Hcalled. cbn [fst snd].
  simpl. rewrite Hbusy. simpl. rewrite Hnet. simpl. rewrite Hio. simpl.
  rewrite <- (advance_parked (drain_from_queue_read env (queue w))
                (tick_io (set_syncInProgress true (set_isOnline true (tick_net w)))))
    by apply parked_drain_from_queue_read.
  reflexivity.
Qed.

Lemma run_drain_from_queue_read env pending w :
  no_io_error env →
  let rs := server_responses env (length (submitted w)) pending in
  run (drain_from_queue_read env pending) w =
  (Ok (drain_result rs),
   set_syncInProgress false
     (tick_io (with_storage (set_LAST_SYNC (clock env (n_clock w)))
        (tick_clock (tick_io (with_storage (set_PENDING_ANSWERS (failed rs))
           (mkWorld (storage w) (isOnline w) (syncInProgress w) (n_clock w) (n_net w)
                    (n_io w) (fetched w) (submitted w ++ (request_of <$> pending))))))))).
Proof.
  intros Hio rs. subst rs. unfold drain_from_queue_read.
  rewrite run_try_finally, run_bind, run_sync_loop, after_Ok.
  rewrite run_bind, run_setItem, Hio, after_Ok.
  rewrite run_bind, run_now, after_Ok, run_bind, run_setItem, Hio, after_Ok, run_ret.
  done.
Qed.

(** X19. An answer recorded during a drain is lost.  Let a drain read the
    (non-empty) list of pending answers and wait for the server's response to
    its first submission; let [queueAnswer] be called and complete at that
    point; let the drain then go on to its end (device online, store
    answering).  The answer is appended to the persisted queue by
    [queueAnswer], but the drain then overwrites the queue with the entries
    of its own snapshot that failed: the new answer is neither submitted nor
    queued any more. *)
Theorem enqueue_during_drain_is_lost env w c :
  syncInProgress w = false →
  default false (netinfo env (n_net w)) = true →
  no_io_error env →
  queue w ≠ [] →
  let drain := drain_until_queue_read env w in
  let new := mkPendingAnswer (pending_id (clock env (n_clock w))) (enq_question_id c)
               (enq_user_answer c) (enq_response_time_ms c)
               (clock env (S (n_clock w))) (enq_topic_slug c) in
  let w1 := (run (queueAnswer env (enq_question_id c) (enq_user_answer c)
                    (enq_response_time_ms c) (enq_topic_slug c)) drain.1).2 in
  let rs := server_responses env (length (submitted w)) (queue w) in
  (∃ k u, drain.2 = Await k u) ∧
  queue w1 = queue w ++ [new] ∧
  (run drain.2 w1).1 = Ok (drain_result rs) ∧
  queue (run drain.2 w1).2 = failed rs ∧
  submitted (run drain.2 w1).2 = submitted w ++ (request_of <$> queue w).
Proof.
  intros Hbusy Hnet Hio Hne drain new w1 rs. subst w1 drain.
  rewrite drain_until_queue_read_eq by (done || apply Hio). cbn [fst snd].
  split.
  { destruct (queue w) as [|a P]; [done|]. simpl. eauto. }
  rewrite run_queueAnswer, Hio, run_updateOfflineStats_true by apply Hio.
  rewrite run_drain_from_queue_read by done.
  unfold queue, read_pending. simpl. rewrite Hio. done.
Qed.

Lemma enqueue_during_drain_is_lost_witness :
  let c := mkEnqueue "q4" "9" 800 "arithmetic" in
  let drain := drain_until_queue_read flaky_env (with_queue [R1; R2]) in
  let w1 := (run (queueAnswer flaky_env "q4" "9" 800 "arithmetic") drain.1).2 in
  queue w1 = [R1; R2; mkPendingAnswer "pending_1000" "q4" "9" 800 1001 "arithmetic"] ∧
  queue (run drain.2 w1).2 = [R2] ∧
  submitted (run drain.2 w1).2 = [request_of R1; request_of R2].
Proof.
  intros c drain w1.
  destruct (enqueue_during_drain_is_lost flaky_env (with_queue [R1; R2]) c)
    as (_ & Hq & _ & Hlost & Hsub).
  - reflexivity.
  - reflexivity.
  - intros k. reflexivity.
  - discriminate.
  - split; [exact Hq|]. split; [exact Hlost|exact Hsub].
Defined.

(** X20. Two overlapping [queueAnswer] calls store one answer.  When
    [queueAnswer] is called twice in a row without awaiting the first call,
    and the two calls are resumed in turn (store answering), both complete
    without error, but both have read the queue before either writes it: the
    persisted queue ends as the old queue followed by the second answer only,
    and the statistics count one more answer, not two. *)
Theorem overlapping_enqueues_store_one_answer env a b w :
  no_io_error env →
  let r := overlapping_enqueues env a b w in
  r.1.2 = Ret (Ok tt) ∧ r.2 = Ret (Ok tt) ∧
  queue r.1.1 = queue w ++
                [mkPendingAnswer (pending_id (clock env (S (S (n_clock w)))))
                   (enq_question_id b) (enq_user_answer b) (enq_response_time_ms b)
                   (clock env (S (S (S (n_clock w))))) (enq_topic_slug b)] ∧
  questions_answered_offline <$> OFFLINE_STATS (storage r.1.1)
  = Some (default 0 (questions_answered_offline <$> OFFLINE_STATS (storage w)) + 1).
Proof.
  intros Hio r. subst r. unfold overlapping_enqueues.
  cbn. repeat (rewrite Hio; cbn).
  unfold queue. by destruct (OFFLINE_STATS (storage w)).
Qed.

Lemma overlapping_enqueues_store_one_answer_witness :
  let r := overlapping_enqueues ticking_env (mkEnqueue "q4" "9" 800 "arithmetic")
             (mkEnqueue "q5" "2" 650 "fractions") (with_queue [R1]) in
  queue r.1.1 = [R1; mkPendingAnswer "pending_1002" "q5" "2" 650 1003 "fractions"].
Proof.
  intros r.
  destruct (overlapping_enqueues_store_one_answer ticking_env
              (mkEnqueue "q4" "9" 800 "arithmetic") (mkEnqueue "q5" "2" 650 "fractions")
              (with_queue [R1])) as (_ & _ & Hq & _).
  - intros k. reflexivity.
  - exact Hq.
Defined.

(** ** Draining until the queue is empty *)

Section Liveness.
Variable env : Env.
Hypothesis Hio : no_io_error env.
Hypothesis Hnet : always_online env.

Lemma failed_nil_when_accepting K P : ∀ k,
  accepts_from env K → (K ≤ k)%nat → failed (server_responses env k P) = [].
Proof.
  induction P as [|a P IH]; intros k Hacc Hk; [done|].
  cbn [server_responses]. rewrite failed_cons.
  destruct (Hacc k (request_of a) Hk) as [response ->].
  apply IH; [done|lia].
Qed.

Lemma drain_step w :
  syncInProgress w = false →
  let w' := (run (syncPendingAnswers env) w).2 in
  syncInProgress w' = false ∧
  queue w' = failed (server_responses env (length (submitted w)) (queue w)) ∧
  length (submitted w') = (length (submitted w) + length (queue w))%nat.
Proof.
  intros Hbusy w'. subst w'.
  rewrite run_syncPendingAnswers_online by (done || apply Hnet). rewrite !Hio.
  unfold read_pending. rewrite Hio. fold (queue w). simpl.
  split; [done|]. split; [done|]. by rewrite length_app, length_fmap.
Qed.

Lemma run_drains_add n m w :
  run_drains env (n + m) w = run_drains env m (run_drains env n w).
Proof. revert w. induction n as [|n IH]; intros w; [done|]. simpl. apply IH. Qed.

Lemma run_drains_progress n : ∀ w,
  syncInProgress w = false →
  let w' := run_drains env n w in
  syncInProgress w' = false ∧
  (queue w = [] → queue w' = []) ∧
  (queue w' = [] ∨ (length (submitted w) + n ≤ length (submitted w'))%nat).
Proof.
  induction n as [|n IH]; intros w Hbusy; cbn [run_drains].
  - split; [done|]. split; [done|]. right. lia.
  - destruct (drain_step w Hbusy) as (Hbusy' & Hq & Hlen).
    set (w1 := (run (syncPendingAnswers env) w).2) in *.
    destruct (IH w1 Hbusy') as (Hflag & Hempty & Hprog).
    split; [done|]. split.
    + intros Hnil. apply Hempty. rewrite Hq, Hnil. done.
    + destruct (queue w) as [|a P] eqn:HP.
      * left. apply Hempty. by rewrite Hq.
      * destruct Hprog as [?|Hprog]; [by left|]. right. simpl in Hlen. lia.
Qed.

End Liveness.

(** X21. The queue is eventually emptied: if the device stays online, the
    store answers, and the server accepts every submission from its [K]-th
    request on, then [K + 1] drains run one after the other leave the queue
    empty, whatever the server answered to its first [K] requests; and once
    empty, the queue stays empty under further drains. *)
Theorem drains_eventually_empty_the_queue env K w :
  no_io_error env → always_online env → accepts_from env K →
  syncInProgress w = false →
  queue (run_drains env (S K) w) = [] ∧
  (∀ n, queue (run_drains env (S K + n) w) = []).
Proof.
  intros Hio Hnet Hacc Hbusy.
  assert (Hfirst : queue (run_drains env (S K) w) = []).
  { replace (S K) with (K + 1)%nat by lia. rewrite run_drains_add.
    destruct (run_drains_progress env Hio Hnet K w Hbusy) as (Hflag & _ & Hprog).
    set (w' := run_drains env K w) in *. cbn [run_drains].
    destruct (drain_step env Hio Hnet w' Hflag) as (_ & Hq & _).
    rewrite Hq. destruct Hprog as [->|Hprog]; [done|].
    apply (failed_nil_when_accepting env K); [done|lia]. }
  split; [done|]. intros n. rewrite run_drains_add.
  destruct (run_drains_progress env Hio Hnet (S K) w Hbusy) as (Hflag & _ & _).
  destruct (run_drains_progress env Hio Hnet n (run_drains env (S K) w) Hflag)
    as (_ & Hempty & _).
  by apply Hempty.
Qed.

Lemma drains_eventually_empty_the_queue_witness :
  queue (run_drains flaky_env 3 (with_queue [R1; R2; R3])) = [].
Proof.
  apply (drains_eventually_empty_the_queue flaky_env 2 (with_queue [R1; R2; R3])).
  - intros k. reflexivity.
  - intros k. reflexivity.
  - intros k params Hk. simpl. rewrite decide_False by lia. eauto.
  - reflexivity.
Defined.

(** ** Each component keeps to its own keys *)

Lemma after_read_cached_frame env w :
  submitted (after_read_cached env w) = submitted w ∧
  fetched (after_read_cached env w) = fetched w.
Proof.
  unfold after_read_cached.
  destruct (io_error env (n_io w)), (CACHED_QUESTIONS (storage w)); done.
Qed.

(** X22. Each component writes its own storage key only, whatever the
    network, the server and the store do.  The cache operations
    ([cacheQuestions], [getOfflineQuestion], [clearExpiredCache]) leave the
    pending answers, the progress snapshot, the last-sync time and the
    statistics alone and submit no answer; [queueAnswer] leaves the cache,
    the snapshot and the last-sync time alone and sends no request at all;
    [syncPendingAnswers] leaves the cache, the snapshot and the statistics
    alone and fetches no question; [updateLocalMastery] touches the snapshot
    only and sends no request. *)
Theorem operations_keep_to_their_own_keys env w :
  (∀ topic_slug count difficulty_tier,
     let w' := (run (cacheQuestions env topic_slug count difficulty_tier) w).2 in
     keeps_queue w w' ∧ keeps_progress w w' ∧ keeps_last_sync w w' ∧
     keeps_stats w w' ∧ submits_nothing w w') ∧
  (∀ topic_slug,
     let w' := (run (getOfflineQuestion env topic_slug) w).2 in
     keeps_queue w w' ∧ keeps_progress w w' ∧ keeps_last_sync w w' ∧
     keeps_stats w w' ∧ submits_nothing w w' ∧ fetches_nothing w w') ∧
  (let w' := (run (clearExpiredCache env) w).2 in
   keeps_queue w w' ∧ keeps_progress w w' ∧ keeps_last_sync w w' ∧
   keeps_stats w w' ∧ submits_nothing w w' ∧ fetches_nothing w w') ∧
  (∀ question_id user_answer response_time_ms topic_slug,
     let w' := (run (queueAnswer env question_id user_answer response_time_ms
                       topic_slug) w).2 in
     keeps_cache w w' ∧ keeps_progress w w' ∧ keeps_last_sync w w' ∧
     submits_nothing w w' ∧ fetches_nothing w w') ∧
  (let w' := (run (syncPendingAnswers env) w).2 in
   keeps_cache w w' ∧ keeps_progress w w' ∧ keeps_stats w w' ∧
   fetches_nothing w w') ∧
  (∀ topic_slug mastery,
     let w' := (run (updateLocalMastery env topic_slug mastery) w).2 in
     keeps_cache w w' ∧ keeps_queue w w' ∧ keeps_last_sync w w' ∧
     keeps_stats w w' ∧ submits_nothing w w' ∧ fetches_nothing w w').
Proof.
  unfold keeps_cache, keeps_queue, keeps_progress, keeps_last_sync, keeps_stats,
    submits_nothing, fetches_nothing.
  split; [|split; [|split; [|split; [|split]]]].
  - intros topic_slug count difficulty_tier.
    destruct (default false (netinfo env (n_net w))) eqn:Hnet.
    + rewrite run_cacheQuestions_online by done.
      set (w1 := mkWorld _ _ _ _ _ _ _ _).
      pose proof (storage_after_read_cached env w1) as Hs.
      destruct (after_read_cached_frame env w1) as [Hsub _].
      destruct (io_error env _); simpl; rewrite Hs, Hsub; done.
    + by rewrite run_cacheQuestions_offline.
  - intros topic_slug.
    rewrite run_getOfflineQuestion, run_getOfflineQuestion_first.
    set (w0 := after_read_cached env w).
    pose proof (storage_after_read_cached env w) as Hs0.
    pose proof (storage_after_read_cached env w0) as Hs1.
    destruct (after_read_cached_frame env w) as [Hsub0 Hf0].
    destruct (after_read_cached_frame env w0) as [Hsub1 Hf1].
    fold w0 in Hs0, Hsub0, Hf0.
    destruct (read_cached env (Some topic_slug) w) as [|first rest]; simpl.
    { rewrite Hs0, Hsub0, Hf0. done. }
    destruct (io_error env _); simpl; rewrite Hs1, Hs0, Hsub1, Hsub0, Hf1, Hf0; done.
  - rewrite run_clearExpiredCache.
    pose proof (storage_after_read_cached env w) as Hs0.
    destruct (after_read_cached_frame env w) as [Hsub0 Hf0].
    destruct (io_error env _); simpl; rewrite Hs0, Hsub0, Hf0; done.
  - intros question_id user_answer response_time_ms topic_slug.
    rewrite run_queueAnswer.
    destruct (io_error env (S (n_io w))); [done|].
    match goal with |- context [run (updateOfflineStats env true) ?w0] =>
      destruct (updateOfflineStats_frame env true w0) as (Hc & _ & Hp & Hl & Hsub & Hf)
    end.
    rewrite Hc, Hp, Hl, Hsub, Hf. done.
  - destruct (syncInProgress w) eqn:Hbusy.
    { by rewrite run_syncPendingAnswers_guard_set. }
    destruct (default false (netinfo env (n_net w))) eqn:Hnet.
    + rewrite run_syncPendingAnswers_online by done.
      destruct (io_error env (S (n_io w))); [done|].
      destruct (io_error env (S (S (n_io w)))); done.
    + by rewrite run_syncPendingAnswers_offline.
  - intros topic_slug mastery.
    rewrite run_updateLocalMastery.
    destruct (read_progress env w); [|done].
    rewrite run_saveProgress. simpl. destruct (io_error env (S (n_io w))); done.
Qed.
